(** * Prompt-Cloner: the interaction logic of [App.tsx] and [geminiService.ts]

  A shallow embedding of the two source files and the properties of the
  specification that concern them.

  Conventions of the embedding.
  - A JavaScript string is a [string]; a character stands for one unit of
    the text.  Every operation the program performs on strings
    ([startsWith], [split] on a comma, a regular expression whose literals
    are ASCII and whose only class is [[\s\S]]) treats the units it does not
    name alike, so nothing depends on the size of a unit.
  - [null] and [undefined] are [None].
  - The React state of the component is the record [UIState]; a setter
    overwrites one field.
  - Effects (the network, the console, the clipboard, file readers,
    timers) are fields of a [World] that is passed explicitly; handlers are
    computations of the monad [Js], which also carries thrown errors.
  - The inference service and its SDK are external: they enter as an
    environment [Env]. *)

From Stdlib Require Import String Ascii List Bool Arith Lia.
Import ListNotations.
Open Scope string_scope.

(* ------------------------------------------------------------------ *)
(** ** JavaScript values and strings *)

Module JsValue.

(** An error value, as thrown and caught. *)
Inductive JsError : Type := Err (message : string).

(** [!!s] for a string. *)
Definition truthy_string (s : string) : bool :=
  match s with
  | EmptyString => false
  | String _ _ => true
  end.

(** [!!v] for a value of type [string | null | undefined]. *)
Definition truthy (v : option string) : bool :=
  match v with
  | Some s => truthy_string s
  | None => false
  end.

(** [a || b] where [a : string | undefined] and [b : string]. *)
Definition or_else (a : option string) (b : string) : string :=
  match a with
  | Some s => if truthy_string s then s else b
  | None => b
  end.

(** [strip_prefix p s] is the rest of [s] after its prefix [p], if [s]
    starts with [p]. *)
Fixpoint strip_prefix (p s : string) : option string :=
  match p with
  | EmptyString => Some s
  | String a p' =>
      match s with
      | EmptyString => None
      | String b s' => if Ascii.eqb a b then strip_prefix p' s' else None
      end
  end.

(** [s.startsWith(p)]. *)
Definition startsWith (s p : string) : bool :=
  match strip_prefix p s with
  | Some _ => true
  | None => false
  end.

(** [s.split(sep)] for a separator of one character: the pieces between
    the separators, in order; a string with [n] separators has [n + 1]
    pieces, and the empty string has one piece, itself empty. *)
Fixpoint split (sep : ascii) (s : string) : list string :=
  match s with
  | EmptyString => [EmptyString]
  | String c s' =>
      if Ascii.eqb c sep then EmptyString :: split sep s'
      else
        match split sep s' with
        | piece :: pieces => String c piece :: pieces
        | [] => [String c EmptyString]
        end
  end.

(** [xs[i]]: [undefined] out of range. *)
Definition index {A : Type} (xs : list A) (i : nat) : option A :=
  nth_error xs i.

(** The conversion of an argument to a DOMString. *)
Definition to_DOMString (v : option string) : string :=
  match v with
  | Some s => s
  | None => "undefined"
  end.

Definition LF : ascii := ascii_of_nat 10.
Definition QUOTE : ascii := ascii_of_nat 34.

End JsValue.
Import JsValue.

(* ------------------------------------------------------------------ *)
(** ** Regular expressions

  The fragment of ECMAScript regular expressions the program uses, with
  the backtracking semantics of the language: alternatives are tried from
  the left, [?] is greedy, [*?] is lazy, and the first start position
  that matches wins. *)

Module RegExp.

Inductive Regex : Type :=
| Empty
| Char (c : ascii)
| AnyChar                          (* [\s\S] *)
| Seq (r1 r2 : Regex)
| Alt (r1 r2 : Regex)              (* r1|r2 *)
| Opt (r : Regex)                  (* (?:r)? *)
| LazyStar (r : Regex)             (* r*? *)
| Group (n : nat) (r : Regex).     (* the n-th capturing group *)

(** A literal string. *)
Fixpoint lit (s : string) : Regex :=
  match s with
  | EmptyString => Empty
  | String c s' => Seq (Char c) (lit s')
  end.

(** Captures, latest first. *)
Definition Captures : Type := list (nat * string).

Fixpoint capture (caps : Captures) (n : nat) : option string :=
  match caps with
  | [] => None
  | (m, s) :: caps' => if Nat.eqb m n then Some s else capture caps' n
  end.

Section Matcher.
Context {R : Type}.

(** A continuation receives the input that is left and the captures. *)
Definition Cont : Type := string -> Captures -> option R.

(** [r*?] at [s]: first try to go on without another iteration; only
    then match [r] once more.  An iteration that consumes nothing is
    rejected, as in the language; [fuel] bounds the iterations by the
    length of the input. *)
Fixpoint lazy_loop (step : string -> Captures -> Cont -> option R)
         (fuel : nat) (s : string) (caps : Captures) (k : Cont)
  : option R :=
  match k s caps with
  | Some x => Some x
  | None =>
      match fuel with
      | O => None
      | S fuel' =>
          step s caps
            (fun s' caps' =>
               if Nat.ltb (String.length s') (String.length s)
               then lazy_loop step fuel' s' caps' k
               else None)
      end
  end.

(** [matcher r s caps k]: match [r] at the start of [s], then continue
    with [k]; [None] when every way of matching fails. *)
Fixpoint matcher (r : Regex) (s : string) (caps : Captures) (k : Cont)
  : option R :=
  match r with
  | Empty => k s caps
  | Char c =>
      match s with
      | String b s' => if Ascii.eqb c b then k s' caps else None
      | EmptyString => None
      end
  | AnyChar =>
      match s with
      | String _ s' => k s' caps
      | EmptyString => None
      end
  | Seq r1 r2 =>
      matcher r1 s caps (fun s' caps' => matcher r2 s' caps' k)
  | Alt r1 r2 =>
      match matcher r1 s caps k with
      | Some x => Some x
      | None => matcher r2 s caps k
      end
  | Opt r1 =>
      match matcher r1 s caps k with
      | Some x => Some x
      | None => k s caps
      end
  | LazyStar r1 =>
      lazy_loop (matcher r1) (String.length s) s caps k
  | Group n r1 =>
      matcher r1 s caps
        (fun s' caps' =>
           k s' ((n, substring 0 (String.length s - String.length s') s)
                   :: caps'))
  end.
End Matcher.

(** The result of a successful match: the matched text and the groups. *)
Record MatchResult : Type := mkMatch {
  matched : string;
  groups : Captures
}.

(** [m[i]] for [i >= 1]. *)
Definition group (m : MatchResult) (n : nat) : option string :=
  capture (groups m) n.

(** One attempt, at the start of [s]. *)
Definition match_here (r : Regex) (s : string) : option MatchResult :=
  matcher r s []
    (fun s' caps =>
       Some (mkMatch (substring 0 (String.length s - String.length s') s)
               caps)).

(** [s.match(r)] for a regular expression without flags: the attempts
    from each start position, from the left; [None] is [null]. *)
Fixpoint exec (r : Regex) (s : string) : option MatchResult :=
  match match_here r s with
  | Some m => Some m
  | None =>
      match s with
      | EmptyString => None
      | String _ s' => exec r s'
      end
  end.

End RegExp.

(* ------------------------------------------------------------------ *)
(** ** The world outside the component, and the monad of handlers *)

Module Gemini.

(** One part of the request's [contents]. *)
Inductive Part : Type :=
| InlineData (data : option string) (mimeType : string)
| Text (text : string).

(** The argument of [ai.models.generateContent]. *)
Record GenerateContentParameters : Type := mkParameters {
  model : string;
  parts : list Part
}.

(** The response of the service; [text] is [undefined] when the response
    carries no generated text. *)
Record GenerateContentResponse : Type := mkResponse {
  text : option string
}.

(** [ai.models]: the call either throws or returns a response. *)
Definition Models : Type :=
  GenerateContentParameters -> JsError + GenerateContentResponse.

(** What the program takes from its surroundings: the process
    environment and the constructor of the SDK's client. *)
Record Env : Type := mkEnv {
  GEMINI_API_KEY : option string;
  GoogleGenAI : option string -> JsError + Models
}.

End Gemini.

Module Dom.

(** A [File], as far as the program looks at it. *)
Record File : Type := mkFile {
  name : string;
  type : string
}.

(** The [FileReader] behind a load event, and the event. *)
Record FileReader : Type := mkReader {
  result : option string
}.

Record ProgressEvent : Type := mkEvent {
  target : option FileReader
}.

End Dom.

(** The state of the component: the five [useState] cells. *)
Record UIState : Type := mkUI {
image : option string;
mimeType : string;
analyzing : bool;
result : option string;
copied : bool
}.

(** The callbacks the program hands to [setTimeout]. *)
Inductive TimerCallback : Type :=
| ClearCopied.                       (* () => setCopied(false) *)

Record World : Type := mkWorld {
ui : UIState;
(** requests sent to the inference service, oldest first *)
network : list Gemini.GenerateContentParameters;
(** arguments of [console.error], oldest first *)
console : list JsError;
(** texts handed to [navigator.clipboard.writeText], oldest first *)
clipboard : list string;
(** files whose [readAsDataURL] is under way, oldest first; the [onload]
    of each is [App.onload] of that file *)
readers : list Dom.File;
(** pending timers: the time each is due and its callback *)
timers : list (nat * TimerCallback);
(** the clock, in milliseconds *)
clock : nat
}.

Definition with_ui (f : UIState -> UIState) (w : World) : World :=
mkWorld (f (ui w)) (network w) (console w) (clipboard w) (readers w)
  (timers w) (clock w).

(** How a computation ends: normally with a value, or by throwing. *)
Inductive Completion (A : Type) : Type :=
| Normal (a : A)
| Throw (e : JsError).
Arguments Normal {A} a.
Arguments Throw {A} e.

Definition Js (A : Type) : Type := World -> Completion A * World.

Definition ret {A : Type} (a : A) : Js A := fun w => (Normal a, w).

Definition throw {A : Type} (e : JsError) : Js A := fun w => (Throw e, w).

Definition bind {A B : Type} (c : Js A) (f : A -> Js B) : Js B :=
fun w =>
  match c w with
  | (Normal a, w') => f a w'
  | (Throw e, w') => (Throw e, w')
  end.

Declare Scope js_scope.
Delimit Scope js_scope with js.
Notation "x <- c ;; k" := (bind c (fun x => k))
(at level 61, c at next level, right associativity) : js_scope.
Notation "c ;; k" := (bind c (fun _ => k))
(at level 61, right associativity) : js_scope.
Open Scope js_scope.

(** [try { body } catch (error) { handler error } finally { finalizer }]. *)
Definition try_catch_finally {A : Type}
         (body : Js A) (handler : JsError -> Js A) (finalizer : Js unit)
: Js A :=
fun w =>
  let (c, w1) :=
    match body w with
    | (Normal a, w') => (Normal a, w')
    | (Throw e, w') => handler e w'
    end in
  match finalizer w1 with
  | (Normal _, w2) => (c, w2)
  | (Throw e, w2) => (Throw e, w2)
  end.

(** The state a computation leaves. *)
Definition exec_js {A : Type} (c : Js A) (w : World) : World := snd (c w).

(** The setters of the five state cells. *)
Definition setImage (v : option string) : Js unit :=
fun w => (Normal tt,
  with_ui (fun u => mkUI v (mimeType u) (analyzing u) (result u) (copied u)) w).

Definition setMimeType (v : string) : Js unit :=
fun w => (Normal tt,
  with_ui (fun u => mkUI (image u) v (analyzing u) (result u) (copied u)) w).

Definition setAnalyzing (v : bool) : Js unit :=
fun w => (Normal tt,
  with_ui (fun u => mkUI (image u) (mimeType u) v (result u) (copied u)) w).

Definition setResult (v : option string) : Js unit :=
fun w => (Normal tt,
  with_ui (fun u => mkUI (image u) (mimeType u) (analyzing u) v (copied u)) w).

Definition setCopied (v : bool) : Js unit :=
fun w => (Normal tt,
  with_ui (fun u => mkUI (image u) (mimeType u) (analyzing u) (result u) v) w).

(** [console.error(e)]. *)
Definition console_error (e : JsError) : Js unit :=
fun w => (Normal tt,
  mkWorld (ui w) (network w) (console w ++ [e]) (clipboard w) (readers w)
    (timers w) (clock w)).

(** [navigator.clipboard.writeText(t)]; the promise it returns is dropped
  by the program. *)
Definition clipboard_writeText (t : string) : Js unit :=
fun w => (Normal tt,
  mkWorld (ui w) (network w) (console w) (clipboard w ++ [t]) (readers w)
    (timers w) (clock w)).

(** [setTimeout(cb, delay)]. *)
Definition setTimeout (cb : TimerCallback) (delay : nat) : Js unit :=
fun w => (Normal tt,
  mkWorld (ui w) (network w) (console w) (clipboard w) (readers w)
    (timers w ++ [(clock w + delay, cb)]) (clock w)).

(** [new FileReader()], its [onload] set, then [reader.readAsDataURL(file)]:
  the read is under way, nothing else has happened yet. *)
Definition readAsDataURL (file : Dom.File) : Js unit :=
fun w => (Normal tt,
  mkWorld (ui w) (network w) (console w) (clipboard w) (readers w ++ [file])
    (timers w) (clock w)).

(** One awaited call of the service: the request goes out, and the call
  throws or returns. *)
Definition generateContent (ai : Gemini.Models)
         (params : Gemini.GenerateContentParameters)
: Js Gemini.GenerateContentResponse :=
fun w =>
  let w' := mkWorld (ui w) (network w ++ [params]) (console w) (clipboard w)
              (readers w) (timers w) (clock w) in
  match ai params with
  | inl e => (Throw e, w')
  | inr response => (Normal response, w')
  end.

(** [new GoogleGenAI({ apiKey })]. *)
Definition new_GoogleGenAI (env : Gemini.Env) : Js Gemini.Models :=
fun w =>
  match Gemini.GoogleGenAI env (Gemini.GEMINI_API_KEY env) with
  | inl e => (Throw e, w)
  | inr ai => (Normal ai, w)
  end.

(* ------------------------------------------------------------------ *)
(** ** [services/geminiService.ts] *)

Module GeminiService.
Import Gemini.

(** The instruction sent with every image (a template literal without
    substitutions). *)
Definition prompt : string :=
  "Analise esta imagem detalhadamente para criar um " ++ String QUOTE EmptyString ++ "prompt de clonagem" ++ String QUOTE EmptyString ++ " perfeito. 
  Sua tarefa é descrever cada aspecto técnico e visual para que outra IA possa recriar esta imagem com precisão máxima.
  
  O resultado deve ser estruturado da seguinte forma:
  
  ### 🚀 Prompt de Clonagem (Inglês)
  [Um prompt altamente detalhado em inglês, otimizado para Midjourney, Stable Diffusion ou DALL-E 3]
  
  ### 🔍 Análise de Detalhes (Português)
  - **Sujeito:** Detalhes físicos, expressão, pose.
  - **Estilo:** Técnica artística ou fotográfica.
  - **Iluminação:** Atmosfera e fontes de luz.
  - **Composição:** Enquadramento e profundidade.
  - **Cores:** Paleta e saturação.
  
  Seja extremamente específico. Se houver um rosto, descreva traços únicos. Se houver um corpo, descreva a anatomia e vestimenta.".

Definition model_name : string := "gemini-3-flash-preview".

(** [base64Image.split(',')[1]]. *)
Definition inline_data (base64Image : string) : option string :=
  index (split "," base64Image) 1.

(** The argument of the one call of the service. *)
Definition request (base64Image mimeType : string)
  : GenerateContentParameters :=
  mkParameters model_name
    [InlineData (inline_data base64Image) mimeType; Text prompt].

(** [analyzeImage(base64Image, mimeType)]. *)
Definition analyzeImage (env : Env) (base64Image mimeType : string)
  : Js (option string) :=
  ai <- new_GoogleGenAI env ;;
  response <- generateContent ai (request base64Image mimeType) ;;
  ret (text response).

End GeminiService.

(* ------------------------------------------------------------------ *)
(** ** [App.tsx] *)

Module App.
Import RegExp.

(** The state of a freshly mounted component. *)
Definition initial_ui : UIState := mkUI None "" false None false.

(** The body of [reader.onload] in [handleFile file]. *)
Definition onload (file : Dom.File) (e : Dom.ProgressEvent) : Js unit :=
  setImage (match Dom.target e with
            | Some reader => Dom.result reader
            | None => None
            end) ;;
  setMimeType (Dom.type file) ;;
  setResult None.

(** [handleFile(file)]. *)
Definition handleFile (file : Dom.File) : Js unit :=
  if negb (startsWith (Dom.type file) "image/") then ret tt
  else readAsDataURL file.

(** [onDrop(e)]: the first of the dropped files, if there is one. *)
Definition onDrop (files : list Dom.File) : Js unit :=
  match files with
  | file :: _ => handleFile file
  | [] => ret tt
  end.

(** The messages of [handleAnalyze]. *)
Definition no_prompt_message : string :=
  "Não foi possível gerar o prompt.".

Definition error_message : string :=
  "Erro ao analisar imagem. Verifique sua conexão.".

(** [handleAnalyze()], in a render whose state is the one of the world
    it starts in. *)
Definition handleAnalyze (env : Gemini.Env) : Js unit :=
  fun w =>
    match image (ui w) with
    | None => ret tt w
    | Some img =>
        if negb (truthy_string img) then ret tt w
        else
          (setAnalyzing true ;;
           try_catch_finally
             (promptResult <-
                GeminiService.analyzeImage env img (mimeType (ui w)) ;;
              setResult (Some (or_else promptResult no_prompt_message)))
             (fun error =>
                console_error error ;;
                setResult (Some error_message))
             (setAnalyzing false)) w
    end.

(** The button that requests the analysis:
    [<button disabled={!image || analyzing} onClick={handleAnalyze}>].
    A click on a disabled button runs no handler. *)
Definition analyze_button_disabled (u : UIState) : bool :=
  negb (truthy (image u)) || analyzing u.

Definition analyze_button_click (env : Gemini.Env) : Js unit :=
  fun w =>
    if analyze_button_disabled (ui w) then ret tt w
    else handleAnalyze env w.

(** The pattern of [copyToClipboard]:
    three backquotes, [(?:prompt|text|markdown)?], a line feed,
    [([\s\S]*?)], a line feed, three backquotes. *)
Definition fence : string := "```".

Definition code_block : Regex :=
  Seq (lit fence)
    (Seq (Opt (Alt (lit "prompt") (Alt (lit "text") (lit "markdown"))))
       (Seq (Char LF)
          (Seq (Group 1 (LazyStar AnyChar))
             (Seq (Char LF) (lit fence))))).

(** [const textToCopy = codeMatch ? codeMatch[1] : result]. *)
Definition textToCopy (result : string) : string :=
  match exec code_block result with
  | Some codeMatch => to_DOMString (group codeMatch 1)
  | None => result
  end.

(** [copyToClipboard()]. *)
Definition copyToClipboard : Js unit :=
  fun w =>
    match result (ui w) with
    | None => ret tt w
    | Some res =>
        if negb (truthy_string res) then ret tt w
        else
          (clipboard_writeText (textToCopy res) ;;
           setCopied true ;;
           setTimeout ClearCopied 2000) w
    end.

(** Running a timer's callback. *)
Definition run_callback (cb : TimerCallback) : Js unit :=
  match cb with
  | ClearCopied => setCopied false
  end.

End App.

(* ------------------------------------------------------------------ *)
(** ** The event loop: timers and the clock *)

Module EventLoop.

(** Timers are kept in the order they were set.  Every timer of the
    program has the same delay and the clock never goes back, so this is
    also the order in which they are due. *)
Fixpoint fire (due : list (nat * TimerCallback)) (w : World) : World :=
  match due with
  | [] => w
  | (_, cb) :: due' => fire due' (exec_js (App.run_callback cb) w)
  end.

Definition is_due (t : nat) (timer : nat * TimerCallback) : bool :=
  Nat.leb (fst timer) t.

(** Time passes until the clock shows [t] (a clock already past [t] stays):
    the timers due by then run, the others stay pending. *)
Definition advance_to (t : nat) (w : World) : World :=
  let now := Nat.max (clock w) t in
  let due := filter (is_due now) (timers w) in
  let pending := filter (fun timer => negb (is_due now timer)) (timers w) in
  fire due
    (mkWorld (ui w) (network w) (console w) (clipboard w) (readers w)
       pending now).

(** The user invokes [copyToClipboard] at each of the given times. *)
Fixpoint copy_at (times : list nat) (w : World) : World :=
  match times with
  | [] => w
  | t :: times' =>
      copy_at times' (exec_js App.copyToClipboard (advance_to t w))
  end.

End EventLoop.

(* ------------------------------------------------------------------ *)
(** ** The component in use: the handlers as the markup wires them

    Between two events the component has rendered again, so every handler
    runs in a render whose state is the current one.  The two operations
    that complete later (the read of a file, the call of the service) are
    events of their own, so that other events may come in between. *)

Module Session.

(** [onChange] of the file input:
    [e.target.files?.[0] && handleFile(e.target.files[0])]. *)
Definition onChange (files : option (list Dom.File)) : Js unit :=
  match files with
  | Some (file :: _) => App.handleFile file
  | Some [] => ret tt
  | None => ret tt
  end.

(** The button that copies is part of the markup only with a result:
    [{result && (<button onClick={copyToClipboard}>...)}]. *)
Definition copy_button_rendered (u : UIState) : bool := truthy (result u).

(** [handleAnalyze] up to its [await]: the guard, [setAnalyzing(true)] and
    the call of [analyzeImage], by which the request goes out.  The value is
    the outcome the promise will settle with, or [None] when the handler
    returned at its guard. *)
Definition handleAnalyze_begin (env : Gemini.Env)
  : World -> option (Completion (option string)) * World :=
  fun w =>
    match image (ui w) with
    | None => (None, w)
    | Some img =>
        if negb (truthy_string img) then (None, w)
        else
          let (_, w1) := setAnalyzing true w in
          let (c, w2) :=
            GeminiService.analyzeImage env img (mimeType (ui w)) w1 in
          (Some c, w2)
    end.

(** [handleAnalyze] from its [await] on, the promise having settled with
    [c]: the rest of the [try] block, or the [catch] block, and the
    [finally] block. *)
Definition handleAnalyze_resume (c : Completion (option string)) : Js unit :=
  try_catch_finally
    (promptResult <- (fun w => (c, w)) ;;
     setResult (Some (or_else promptResult App.no_prompt_message)))
    (fun error =>
       console_error error ;;
       setResult (Some App.error_message))
    (setAnalyzing false).

(** The component and the calls of the service that have not settled. *)
Record Session : Type := mkSession {
  world : World;
  pending : list (Completion (option string))
}.

Inductive Event : Type :=
| Drop (files : list Dom.File)            (* files dropped on the zone *)
| Change (files : option (list Dom.File)) (* the file input changed *)
| Load (i : nat) (e : Dom.ProgressEvent)  (* the i-th read completed *)
| ClickAnalyze                            (* a click on the analyze button *)
| Settle (i : nat)                        (* the i-th call settled *)
| ClickCopy                               (* a click on the copy button *)
| Wait (t : nat).                         (* time passes until [t] *)

Fixpoint remove_nth {A : Type} (i : nat) (l : list A) : list A :=
  match l with
  | [] => []
  | x :: l' =>
      match i with
      | O => l'
      | S i' => x :: remove_nth i' l'
      end
  end.

Definition with_readers (rs : list Dom.File) (w : World) : World :=
  mkWorld (ui w) (network w) (console w) (clipboard w) rs (timers w) (clock w).

Definition dispatch (env : Gemini.Env) (ev : Event) (s : Session) : Session :=
  let w := world s in
  match ev with
  | Drop files => mkSession (exec_js (App.onDrop files) w) (pending s)
  | Change files => mkSession (exec_js (onChange files) w) (pending s)
  | Load i e =>
      match nth_error (readers w) i with
      | Some file =>
          mkSession
            (exec_js (App.onload file e)
               (with_readers (remove_nth i (readers w)) w))
            (pending s)
      | None => s
      end
  | ClickAnalyze =>
      if App.analyze_button_disabled (ui w) then s
      else
        match handleAnalyze_begin env w with
        | (Some c, w') => mkSession w' (pending s ++ [c])
        | (None, w') => mkSession w' (pending s)
        end
  | Settle i =>
      match nth_error (pending s) i with
      | Some c =>
          mkSession (exec_js (handleAnalyze_resume c) w)
            (remove_nth i (pending s))
      | None => s
      end
  | ClickCopy =>
      if copy_button_rendered (ui w)
      then mkSession (exec_js App.copyToClipboard w) (pending s)
      else s
  | Wait t => mkSession (EventLoop.advance_to t w) (pending s)
  end.

Fixpoint run (env : Gemini.Env) (events : list Event) (s : Session)
  : Session :=
  match events with
  | [] => s
  | ev :: events' => run env events' (dispatch env ev s)
  end.

(** The component as mounted. *)
Definition initial : Session :=
  mkSession (mkWorld App.initial_ui [] [] [] [] [] 0) [].

End Session.

(* ================================================================== *)
(** * The vocabulary of the properties *)

(** ** Texts *)

(** [has_char c s]: the character [c] occurs in [s]. *)
Fixpoint has_char (c : ascii) (s : string) : bool :=
  match s with
  | EmptyString => false
  | String x s' => Ascii.eqb x c || has_char c s'
  end.

(** [contains sub s]: the text [sub] occurs in [s]. *)
Fixpoint contains (sub s : string) : bool :=
  match strip_prefix sub s with
  | Some _ => true
  | None =>
      match s with
      | EmptyString => false
      | String _ s' => contains sub s'
      end
  end.

(** The reading of C9: all of the input after its first separator. *)
Fixpoint after_first (sep : ascii) (s : string) : option string :=
  match s with
  | EmptyString => None
  | String c s' => if Ascii.eqb c sep then Some s' else after_first sep s'
  end.

(** ** Fenced blocks *)

(** The closing line of a block: a line feed and the fence. *)
Definition closing : string := String LF App.fence.

(** The tags the pattern lets the opening fence carry; the last is no tag
    at all. *)
Definition block_tags : list string := ["prompt"; "text"; "markdown"; ""].

(** The shape the pattern matches, followed by [rest]: three backquotes, a
    tag, a line feed, some text, a line feed, three backquotes.  This is a
    shape of characters only: a text of this shape need not be a block of
    the document (its first three backquotes may close an earlier block, or
    stand in the middle of a line); [first_block] below adds what makes it
    one. *)
Definition fenced (tag inner rest : string) : string :=
  App.fence ++ tag ++ String LF (inner ++ closing ++ rest).

(** A text that holds the shape somewhere, with one of the given tags. *)
Definition has_block (tags : list string) (s : string) : Prop :=
  exists pre tag inner rest, In tag tags /\ s = pre ++ fenced tag inner rest.





(** [find_close body]: the text of [body] before its first closing line,
    and the text after that line. *)
Fixpoint find_close (body : string) : option (string * string) :=
  match strip_prefix closing body with
  | Some rest => Some (EmptyString, rest)
  | None =>
      match body with
      | EmptyString => None
      | String c body' =>
          match find_close body' with
          | Some (inner, rest) => Some (String c inner, rest)
          | None => None
          end
      end
  end.

(** ** The pattern, read by hand

    What the matcher computes on the pattern of [copyToClipboard], written
    as plain functions; [match_here_code_block] below proves that the
    matcher computes just this. *)

(** [[\s\S]*?] by recursion on the input: go on here if the rest of the
    pattern matches here, else skip one character and try again. *)
Fixpoint lazy_any {R : Type} (k : string -> option R) (s : string)
  : option R :=
  match k s with
  | Some x => Some x
  | None =>
      match s with
      | EmptyString => None
      | String _ s' => lazy_any k s'
      end
  end.

(** After the opening line: the group and the closing line. *)
Definition close_match (s body : string) : option RegExp.MatchResult :=
  match find_close body with
  | Some (inner, rest) =>
      Some (RegExp.mkMatch
              (substring 0 (String.length s - String.length rest) s)
              [(1, inner)])
  | None => None
  end.

(** After the fence and the tag: the line feed, then the rest. *)
Definition body_match (s s2 : string) : option RegExp.MatchResult :=
  match s2 with
  | String c body => if Ascii.eqb LF c then close_match s body else None
  | EmptyString => None
  end.

(** After the fence: the tag, then the rest. *)
Definition tag_match (tag s s1 : string) : option RegExp.MatchResult :=
  match strip_prefix tag s1 with
  | Some s2 => body_match s s2
  | None => None
  end.

(** The first of two attempts that succeeds. *)
Definition or_opt {A : Type} (a b : option A) : option A :=
  match a with
  | Some x => Some x
  | None => b
  end.

(** ** The service, as one call sees it *)

(** The outcome of one call of [analyzeImage] and the requests it sends. *)
Definition service_call (env : Gemini.Env) (img mime : string)
  : Completion (option string) * list Gemini.GenerateContentParameters :=
  match Gemini.GoogleGenAI env (Gemini.GEMINI_API_KEY env) with
  | inl e => (Throw e, [])
  | inr ai =>
      (match ai (GeminiService.request img mime) with
       | inl e => Throw e
       | inr response => Normal (Gemini.text response)
       end,
       [GeminiService.request img mime])
  end.

(** The result [handleAnalyze] stores for an outcome of the call, and what
    it logs. *)
Definition shown_result (c : Completion (option string)) : string :=
  match c with
  | Normal promptResult => or_else promptResult App.no_prompt_message
  | Throw _ => App.error_message
  end.

Definition logged_error (c : Completion (option string)) : list JsError :=
  match c with
  | Normal _ => []
  | Throw e => [e]
  end.

(** A request as the program builds them, for an image media type. *)
Definition image_request (req : Gemini.GenerateContentParameters) : Prop :=
  exists data mime,
    req = Gemini.mkParameters GeminiService.model_name
            [Gemini.InlineData data mime; Gemini.Text GeminiService.prompt]
    /\ startsWith mime "image/" = true.

(** The clicks on the analyze button among some events. *)
Fixpoint analyze_clicks (events : list Session.Event) : nat :=
  match events with
  | [] => 0
  | Session.ClickAnalyze :: events' => S (analyze_clicks events')
  | _ :: events' => analyze_clicks events'
  end.

(** ** What one event can do

    The steps of the component in use: each event either changes nothing
    or does one of the six things below.  [dispatch_step] proves that
    [Session.dispatch] makes no other steps. *)

Inductive step (env : Gemini.Env) : Session.Session -> Session.Session -> Prop :=
| step_none (s : Session.Session) :
    step env s s
| step_read (w : World) (ps : list (Completion (option string)))
            (file : Dom.File) :
    startsWith (Dom.type file) "image/" = true ->
    step env (Session.mkSession w ps)
      (Session.mkSession (Session.with_readers (readers w ++ [file]) w) ps)
| step_load (w : World) (ps : list (Completion (option string)))
            (i : nat) (file : Dom.File) (data : option string) :
    nth_error (readers w) i = Some file ->
    step env (Session.mkSession w ps)
      (Session.mkSession
         (mkWorld
            (mkUI data (Dom.type file) (analyzing (ui w)) None (copied (ui w)))
            (network w) (console w) (clipboard w)
            (Session.remove_nth i (readers w)) (timers w) (clock w))
         ps)
| step_begin (w : World) (ps : list (Completion (option string)))
             (img : string) :
    image (ui w) = Some img ->
    truthy_string img = true ->
    analyzing (ui w) = false ->
    step env (Session.mkSession w ps)
      (Session.mkSession
         (mkWorld
            (mkUI (image (ui w)) (mimeType (ui w)) true (result (ui w))
               (copied (ui w)))
            (network w ++ snd (service_call env img (mimeType (ui w))))
            (console w) (clipboard w) (readers w) (timers w) (clock w))
         (ps ++ [fst (service_call env img (mimeType (ui w)))]))
| step_settle (w : World) (ps : list (Completion (option string)))
              (i : nat) (c : Completion (option string)) :
    nth_error ps i = Some c ->
    step env (Session.mkSession w ps)
      (Session.mkSession
         (mkWorld
            (mkUI (image (ui w)) (mimeType (ui w)) false
               (Some (shown_result c)) (copied (ui w)))
            (network w) (console w ++ logged_error c) (clipboard w)
            (readers w) (timers w) (clock w))
         (Session.remove_nth i ps))
| step_copy (w : World) (ps : list (Completion (option string)))
            (res : string) :
    result (ui w) = Some res ->
    truthy_string res = true ->
    step env (Session.mkSession w ps)
      (Session.mkSession
         (mkWorld
            (mkUI (image (ui w)) (mimeType (ui w)) (analyzing (ui w))
               (result (ui w)) true)
            (network w) (console w) (clipboard w ++ [App.textToCopy res])
            (readers w) (timers w ++ [(clock w + 2000, ClearCopied)])
            (clock w))
         ps)
| step_wait (w : World) (ps : list (Completion (option string))) (t : nat) :
    step env (Session.mkSession w ps)
      (Session.mkSession (EventLoop.advance_to t w) ps).

(** The stored image, the pending reads and the requests sent are all of
    an image media type. *)
Definition media_ok (w : World) : Prop :=
  Forall (fun file => startsWith (Dom.type file) "image/" = true) (readers w)
  /\ ((image (ui w) = None /\ mimeType (ui w) = "")
      \/ startsWith (mimeType (ui w)) "image/" = true)
  /\ Forall image_request (network w).

(** A raised indicator has a timer behind it, and no timer is due later
    than 2000 ms from now. *)
Definition timers_ok (w : World) : Prop :=
  (copied (ui w) = true -> timers w <> [])
  /\ Forall (fun timer => fst timer <= clock w + 2000) (timers w).

(** ** Sample environments, worlds and results *)

(** An environment whose client answers every request the same way. *)
Definition stub_env (answer : JsError + Gemini.GenerateContentResponse)
  : Gemini.Env :=
  Gemini.mkEnv (Some "key") (fun _ => inr (fun _ => answer)).

(** A component that holds an image and has no result yet. *)
Definition ready_world : World :=
  mkWorld (mkUI (Some "data:image/png;base64,AAAA") "image/png" false None false)
    [] [] [] [] [] 0.

(** A component whose analysis is under way. *)
Definition in_flight_world : World :=
  mkWorld (mkUI (Some "data:image/png;base64,AAAA") "image/png" true None false)
    [] [] [] [] [] 0.

(** A component that shows the result [res]. *)
Definition world_with_result (res : string) : World :=
  mkWorld
    (mkUI (Some "data:image/png;base64,AAAA") "image/png" false (Some res) false)
    [] [] [] [] [] 0.

(** The state [handleAnalyze] leaves once the promise of [analyzeImage]
    has settled: the result is as given, the flag is down. *)
Definition settled (w : World) (res : string)
           (sent : list Gemini.GenerateContentParameters)
           (logged : list JsError)
  : World :=
  mkWorld
    (mkUI (image (ui w)) (mimeType (ui w)) false (Some res) (copied (ui w)))
    (network w ++ sent) (console w ++ logged) (clipboard w) (readers w)
    (timers w) (clock w).

(** The load event of a read that gave the data URI [uri]. *)
Definition loaded (uri : string) : Dom.ProgressEvent :=
  Dom.mkEvent (Some (Dom.mkReader (Some uri))).


(** The result of the scenario of the specification. *)
Definition scenario_result : string :=
  "### Prompt" ++ String LF (fenced "prompt" "cat on a chair" "").

(** The text made of the given lines, with a line feed between two
    lines. *)
Fixpoint lines (ls : list string) : string :=
  match ls with
  | [] => EmptyString
  | l :: ls' =>
      match ls' with
      | [] => l
      | _ :: _ => l ++ String LF (lines ls')
      end
  end.

(** A result with a block of another tag before two blocks with tags of
    the pattern. *)
Definition other_tag_first_result : string :=
  lines ["```json"; "{}"; "```";
         "```prompt"; "cat"; "```";
         "```text"; "dog"; "```"].

(** A result with prose between two blocks of other tags. *)
Definition prose_between_result : string :=
  lines ["```python"; "x"; "```"; "after"; "```js"; "y"; "```"].

(* ================================================================== *)
(** * Properties *)

Import RegExp.

(** ** Strings *)

Lemma append_assoc (a b c : string) : (a ++ b) ++ c = a ++ (b ++ c).
Proof.
  induction a as [|x a IH]; simpl; [reflexivity | now rewrite IH].
Qed.

(** Bring both sides of an equation between concatenations to the same
    bracketing. *)
Ltac reassoc :=
  repeat first [rewrite append_assoc | progress cbn [append]];
  try reflexivity.

Lemma append_empty_r (a : string) : a ++ "" = a.
Proof.
  induction a as [|x a IH]; simpl; [reflexivity | now rewrite IH].
Qed.

Lemma length_append (a b : string) :
  String.length (a ++ b) = String.length a + String.length b.
Proof.
  induction a as [|x a IH]; simpl; [reflexivity | now rewrite IH].
Qed.

Lemma strip_prefix_app (p s : string) : strip_prefix p (p ++ s) = Some s.
Proof.
  induction p as [|x p IH]; simpl; [reflexivity|].
  now rewrite Ascii.eqb_refl.
Qed.

Lemma strip_prefix_Some (p s t : string) :
  strip_prefix p s = Some t -> s = p ++ t.
Proof.
  revert s; induction p as [|x p IH]; simpl; intros s H.
  - now inversion H.
  - destruct s as [|y s]; [discriminate|].
    destruct (Ascii.eqb_spec x y) as [->|]; [|discriminate].
    now rewrite (IH _ H).
Qed.

Lemma split_no_sep (sep : ascii) (s : string) :
  has_char sep s = false -> split sep s = [s].
Proof.
  induction s as [|x s IH]; simpl; [reflexivity|].
  intros H. apply orb_false_iff in H as [Hx Hs].
  now rewrite Hx, (IH Hs).
Qed.

Lemma split_at_first_sep (sep : ascii) (a b : string) :
  has_char sep a = false ->
  split sep (a ++ String sep b) = a :: split sep b.
Proof.
  induction a as [|x a IH]; simpl.
  - intros _. now rewrite Ascii.eqb_refl.
  - intros H. apply orb_false_iff in H as [Hx Ha].
    now rewrite Hx, (IH Ha).
Qed.

(* ------------------------------------------------------------------ *)
(** ** Selecting an image: [handleFile] *)

(** C6. A file whose declared type does not start with [image/] is ignored:
    [handleFile] returns at once and the whole world, the five state cells
    included, is as before; nothing is logged or shown. *)
Theorem handleFile_ignores_non_image (file : Dom.File) (w : World) :
  startsWith (Dom.type file) "image/" = false ->
  App.handleFile file w = (Normal tt, w).
Proof.
  intros H. unfold App.handleFile. now rewrite H.
Qed.

Lemma handleFile_ignores_non_image_witness :
  App.handleFile (Dom.mkFile "notes.txt" "text/plain")
    (mkWorld App.initial_ui [] [] [] [] [] 0)
  = (Normal tt, mkWorld App.initial_ui [] [] [] [] [] 0).
Proof.
  apply (handleFile_ignores_non_image (Dom.mkFile "notes.txt" "text/plain")).
  reflexivity.
Defined.

(** C7. For a file whose declared type starts with [image/], [handleFile]
    starts the read and leaves the state cells alone; when the read
    completes with the data URI [d], in whatever state the component is by
    then, the stored image is [d], the stored type is the file's declared
    type, the result is cleared, and the two flags are untouched. *)
Theorem handleFile_loads_image (file : Dom.File) (w : World) :
  startsWith (Dom.type file) "image/" = true ->
  App.handleFile file w
  = (Normal tt,
     mkWorld (ui w) (network w) (console w) (clipboard w)
       (readers w ++ [file]) (timers w) (clock w))
  /\ forall (d : string) (w' : World),
      App.onload file (Dom.mkEvent (Some (Dom.mkReader (Some d)))) w'
      = (Normal tt,
         with_ui (fun u => mkUI (Some d) (Dom.type file) (analyzing u) None
                             (copied u)) w').
Proof.
  intros H. split.
  - unfold App.handleFile. now rewrite H.
  - intros d w'. reflexivity.
Qed.

Lemma handleFile_loads_image_witness :
  let file := Dom.mkFile "photo.png" "image/png" in
  let w := mkWorld (mkUI (Some "data:,old") "image/gif" false (Some "old") true)
             [] [] [] [] [] 0 in
  ui (exec_js (App.onload file
                 (Dom.mkEvent (Some (Dom.mkReader (Some "data:image/png;base64,AAAA")))))
        (exec_js (App.handleFile file) w))
  = mkUI (Some "data:image/png;base64,AAAA") "image/png" false None true.
Proof.
  intros file w.
  destruct (handleFile_loads_image file w eq_refl) as [Hstart Hload].
  unfold exec_js. rewrite Hstart, Hload. reflexivity.
Defined.

(* ------------------------------------------------------------------ *)
(** ** The analysis client: [analyzeImage] *)

Section AnalysisClient.
Import Gemini.

(** With a client that could be constructed, [analyzeImage] sends exactly
    one request, the one [GeminiService.request] builds. *)
Lemma analyzeImage_run (env : Env) (ai : Models) (img mime : string)
      (w : World) :
  GoogleGenAI env (GEMINI_API_KEY env) = inr ai ->
  GeminiService.analyzeImage env img mime w
  = (match ai (GeminiService.request img mime) with
     | inl e => Throw e
     | inr response => Normal (text response)
     end,
     mkWorld (ui w) (network w ++ [GeminiService.request img mime])
       (console w) (clipboard w) (readers w) (timers w) (clock w)).
Proof.
  intros Hai.
  unfold GeminiService.analyzeImage, bind, new_GoogleGenAI, generateContent.
  rewrite Hai.
  destruct (ai (GeminiService.request img mime)); reflexivity.
Qed.

(** When the client cannot be constructed, nothing is sent. *)
Lemma analyzeImage_no_client (env : Env) (e : JsError) (img mime : string)
      (w : World) :
  GoogleGenAI env (GEMINI_API_KEY env) = inl e ->
  GeminiService.analyzeImage env img mime w = (Throw e, w).
Proof.
  intros Hai.
  unfold GeminiService.analyzeImage, bind, new_GoogleGenAI.
  now rewrite Hai.
Qed.

(** C3, as the specification states it, fails: a response without
    generated text makes [analyzeImage] return normally, with the missing
    text as its value. *)
Lemma analyzeImage_missing_text_counterexample :
  ~ (exists e w',
        GeminiService.analyzeImage (stub_env (inr (mkResponse None)))
          "data:image/png;base64,AAAA" "image/png"
          (mkWorld App.initial_ui [] [] [] [] [] 0)
        = (Throw e, w')).
Proof.
  intros [e [w' H]]. vm_compute in H. discriminate H.
Qed.

(** C3, amended. Whatever response the service returns, [analyzeImage]
    completes normally with the text field of that response as it is, an
    empty or missing text included; it throws only what the construction
    of the client or the call of the service throws. *)
Theorem analyzeImage_returns_text_verbatim
        (env : Env) (ai : Models) (img mime : string)
        (response : GenerateContentResponse) (w : World) :
  GoogleGenAI env (GEMINI_API_KEY env) = inr ai ->
  ai (GeminiService.request img mime) = inr response ->
  fst (GeminiService.analyzeImage env img mime w) = Normal (text response).
Proof.
  intros Hai Hcall. rewrite (analyzeImage_run env ai img mime w Hai).
  now rewrite Hcall.
Qed.

Lemma analyzeImage_returns_text_verbatim_witness :
  fst (GeminiService.analyzeImage (stub_env (inr (mkResponse (Some ""))))
         "data:image/png;base64,AAAA" "image/png"
         (mkWorld App.initial_ui [] [] [] [] [] 0))
  = Normal (Some "").
Proof.
  apply (analyzeImage_returns_text_verbatim
           (stub_env (inr (mkResponse (Some ""))))
           (fun _ => inr (mkResponse (Some "")))
           "data:image/png;base64,AAAA" "image/png"
           (mkResponse (Some ""))); reflexivity.
Defined.

(** C9, as stated, fails on an input with a second comma: what is sent
    stops at that comma, it is not all that follows the first one. *)
Lemma inline_data_second_comma_counterexample :
  ~ (GeminiService.request "a,b,c" "image/png"
     = mkParameters GeminiService.model_name
         [InlineData (after_first "," "a,b,c") "image/png";
          Text GeminiService.prompt]).
Proof.
  intros H. inversion H.
Qed.

(** C9, amended. [analyzeImage] sends the request that
    [GeminiService.request] builds, and that request carries as inline data
    the piece of the input between its first comma and its second comma,
    or the end of the input when there is no second comma (then it is all
    that follows the first comma); for an input without a comma the data
    field is missing. *)
Theorem inline_data_is_second_piece (mime : string) :
  (forall env ai img w,
      GoogleGenAI env (GEMINI_API_KEY env) = inr ai ->
      network (exec_js (GeminiService.analyzeImage env img mime) w)
      = (network w ++ [GeminiService.request img mime])%list)
  /\ (forall s,
         has_char "," s = false ->
         GeminiService.request s mime
         = mkParameters GeminiService.model_name
             [InlineData None mime; Text GeminiService.prompt])
  /\ (forall a b,
         has_char "," a = false -> has_char "," b = false ->
         GeminiService.request (a ++ String "," b) mime
         = mkParameters GeminiService.model_name
             [InlineData (Some b) mime; Text GeminiService.prompt])
  /\ (forall a b c,
         has_char "," a = false -> has_char "," b = false ->
         GeminiService.request (a ++ String "," (b ++ String "," c)) mime
         = mkParameters GeminiService.model_name
             [InlineData (Some b) mime; Text GeminiService.prompt]).
Proof.
  split.
  { intros env ai img w Hai. unfold exec_js.
    now rewrite (analyzeImage_run env ai img mime w Hai). }
  unfold GeminiService.request, GeminiService.inline_data, index.
  repeat split.
  - intros s Hs. now rewrite (split_no_sep _ _ Hs).
  - intros a b Ha Hb.
    now rewrite (split_at_first_sep _ _ _ Ha), (split_no_sep _ _ Hb).
  - intros a b c Ha Hb.
    now rewrite (split_at_first_sep _ _ _ Ha), (split_at_first_sep _ _ _ Hb).
Qed.

Lemma inline_data_is_second_piece_witness :
  GeminiService.request ("data:image/png;base64" ++ String "," "AAAA")
    "image/png"
  = mkParameters GeminiService.model_name
      [InlineData (Some "AAAA") "image/png"; Text GeminiService.prompt].
Proof.
  apply (proj1 (proj2 (proj2 (inline_data_is_second_piece "image/png"))));
    reflexivity.
Defined.

End AnalysisClient.

(* ------------------------------------------------------------------ *)
(** ** Requesting the analysis: [handleAnalyze] *)

Section RequestAnalysis.
Import Gemini.

(** Without an image (the cell is [null] or holds the empty string),
    [handleAnalyze] returns at once. *)
Lemma handleAnalyze_no_image (env : Env) (w : World) :
  truthy (image (ui w)) = false ->
  App.handleAnalyze env w = (Normal tt, w).
Proof.
  unfold App.handleAnalyze, truthy. intros H.
  destruct (image (ui w)) as [img|]; [|reflexivity].
  now rewrite H.
Qed.

(** The run of [handleAnalyze] with an image and a client. *)
Lemma handleAnalyze_run (env : Env) (ai : Models) (img : string) (w : World) :
  image (ui w) = Some img ->
  truthy_string img = true ->
  GoogleGenAI env (GEMINI_API_KEY env) = inr ai ->
  App.handleAnalyze env w
  = (Normal tt,
     match ai (GeminiService.request img (mimeType (ui w))) with
     | inr response =>
         settled w (or_else (text response) App.no_prompt_message)
           [GeminiService.request img (mimeType (ui w))] []
     | inl e =>
         settled w App.error_message
           [GeminiService.request img (mimeType (ui w))] [e]
     end).
Proof.
  intros Himg Htruthy Hai.
  unfold App.handleAnalyze. rewrite Himg, Htruthy. cbn [negb].
  unfold bind at 1. cbn [setAnalyzing].
  unfold try_catch_finally, bind at 1.
  rewrite (analyzeImage_run env ai _ _ _ Hai).
  destruct (ai (GeminiService.request img (mimeType (ui w))))
    as [e|response]; cbn; unfold settled; cbn;
    rewrite ?app_nil_r; reflexivity.
Qed.

(** The run of [handleAnalyze] when the client cannot be constructed. *)
Lemma handleAnalyze_run_no_client (env : Env) (e : JsError) (img : string)
      (w : World) :
  image (ui w) = Some img ->
  truthy_string img = true ->
  GoogleGenAI env (GEMINI_API_KEY env) = inl e ->
  App.handleAnalyze env w = (Normal tt, settled w App.error_message [] [e]).
Proof.
  intros Himg Htruthy Hai.
  unfold App.handleAnalyze. rewrite Himg, Htruthy. cbn [negb].
  unfold bind at 1. cbn [setAnalyzing].
  unfold try_catch_finally, bind at 1.
  rewrite (analyzeImage_no_client env e _ _ _ Hai).
  cbn. unfold settled; cbn. rewrite ?app_nil_r. reflexivity.
Qed.

(** C1, as stated, fails for [handleAnalyze] in a state whose analyzing
    flag is up: the handler has no check of that flag, it calls the client
    and the state changes. *)
Lemma handleAnalyze_in_flight_counterexample :
  analyzing (ui in_flight_world) = true
  /\ ui (exec_js (App.handleAnalyze (stub_env (inr (mkResponse (Some "a cat")))))
           in_flight_world)
     <> ui in_flight_world
  /\ network (exec_js (App.handleAnalyze (stub_env (inr (mkResponse (Some "a cat")))))
                in_flight_world)
     = [GeminiService.request "data:image/png;base64,AAAA" "image/png"].
Proof.
  split; [reflexivity|]. split; [|reflexivity].
  vm_compute. discriminate.
Qed.

(** C1, amended. In a state without an image, or with the analyzing flag
    up, a click on the button that requests the analysis leaves the whole
    world as it is (the state cells are unchanged and no request is sent),
    because the button is disabled; [handleAnalyze] itself returns at
    once, with the same effect, in a state without an image. *)
Theorem analysis_request_guards (env : Env) (w : World) :
  truthy (image (ui w)) = false \/ analyzing (ui w) = true ->
  App.analyze_button_click env w = (Normal tt, w)
  /\ (truthy (image (ui w)) = false ->
      App.handleAnalyze env w = (Normal tt, w)).
Proof.
  intros H. split.
  - unfold App.analyze_button_click, App.analyze_button_disabled.
    destruct H as [H|H]; rewrite H; cbn; [reflexivity|].
    now rewrite orb_true_r.
  - apply handleAnalyze_no_image.
Qed.

Lemma analysis_request_guards_witness :
  App.analyze_button_click (stub_env (inr (mkResponse (Some "a cat"))))
    in_flight_world
  = (Normal tt, in_flight_world).
Proof.
  apply (analysis_request_guards
           (stub_env (inr (mkResponse (Some "a cat")))) in_flight_world).
  right. reflexivity.
Defined.

(** C2, as stated, fails for the empty text: the stored result is then a
    fixed message, not the text returned. *)
Lemma handleAnalyze_empty_text_counterexample :
  result (ui (exec_js (App.handleAnalyze (stub_env (inr (mkResponse (Some "")))))
                ready_world))
  <> Some "".
Proof.
  vm_compute. discriminate.
Qed.

(** C2, amended. When the client returns a response, [handleAnalyze]
    returns normally with the analyzing flag down; the stored result is
    the returned text, character for character, when that text is not
    empty, and the fixed message [App.no_prompt_message] when the text is
    empty or missing. The image, its type and the copied flag are as
    before. *)
Theorem handleAnalyze_success (env : Env) (ai : Models) (img : string)
        (response : GenerateContentResponse) (w : World) :
  image (ui w) = Some img ->
  truthy_string img = true ->
  GoogleGenAI env (GEMINI_API_KEY env) = inr ai ->
  ai (GeminiService.request img (mimeType (ui w))) = inr response ->
  exists w',
    App.handleAnalyze env w = (Normal tt, w')
    /\ analyzing (ui w') = false
    /\ (forall t, text response = Some t -> t <> "" ->
                  result (ui w') = Some t)
    /\ (truthy (text response) = false ->
        result (ui w') = Some App.no_prompt_message)
    /\ image (ui w') = image (ui w)
    /\ mimeType (ui w') = mimeType (ui w)
    /\ copied (ui w') = copied (ui w).
Proof.
  intros Himg Htruthy Hai Hcall.
  rewrite (handleAnalyze_run env ai img w Himg Htruthy Hai), Hcall.
  eexists. split; [reflexivity|]. cbn.
  repeat split.
  - intros t Ht Hne. rewrite Ht. cbn.
    destruct t; [contradiction | reflexivity].
  - unfold truthy, or_else.
    destruct (text response) as [t|]; [|reflexivity].
    now intros ->.
Qed.

Lemma handleAnalyze_success_witness :
  exists w',
    App.handleAnalyze (stub_env (inr (mkResponse (Some "a cat")))) ready_world
    = (Normal tt, w')
    /\ analyzing (ui w') = false
    /\ (forall t, Some "a cat" = Some t -> t <> "" -> result (ui w') = Some t)
    /\ (truthy (Some "a cat") = false ->
        result (ui w') = Some App.no_prompt_message)
    /\ image (ui w') = image (ui ready_world)
    /\ mimeType (ui w') = mimeType (ui ready_world)
    /\ copied (ui w') = copied (ui ready_world).
Proof.
  apply (handleAnalyze_success
           (stub_env (inr (mkResponse (Some "a cat"))))
           (fun _ => inr (mkResponse (Some "a cat")))
           "data:image/png;base64,AAAA"
           (mkResponse (Some "a cat")) ready_world); reflexivity.
Defined.

(** C5. Whatever error the client raises, be it thrown by the
    construction of the client or by the call of the service,
    [handleAnalyze] returns normally: the error is caught and logged, the
    stored result is the one fixed message [App.error_message], which is
    not empty, and the analyzing flag is down. *)
Theorem handleAnalyze_failure (env : Env) (img : string) (e : JsError)
        (w : World) :
  image (ui w) = Some img ->
  truthy_string img = true ->
  (GoogleGenAI env (GEMINI_API_KEY env) = inl e
   \/ exists ai, GoogleGenAI env (GEMINI_API_KEY env) = inr ai
                 /\ ai (GeminiService.request img (mimeType (ui w))) = inl e) ->
  exists w',
    App.handleAnalyze env w = (Normal tt, w')
    /\ result (ui w') = Some App.error_message
    /\ App.error_message <> ""
    /\ analyzing (ui w') = false
    /\ console w' = (console w ++ [e])%list.
Proof.
  intros Himg Htruthy [Hai | [ai [Hai Hcall]]].
  - rewrite (handleAnalyze_run_no_client env e img w Himg Htruthy Hai).
    eexists. split; [reflexivity|]. cbn.
    repeat split. discriminate.
  - rewrite (handleAnalyze_run env ai img w Himg Htruthy Hai), Hcall.
    eexists. split; [reflexivity|]. cbn.
    repeat split. discriminate.
Qed.

Lemma handleAnalyze_failure_witness :
  exists w',
    App.handleAnalyze (stub_env (inl (Err "fetch failed"))) ready_world
    = (Normal tt, w')
    /\ result (ui w') = Some App.error_message
    /\ App.error_message <> ""
    /\ analyzing (ui w') = false
    /\ console w' = (console ready_world ++ [Err "fetch failed"])%list.
Proof.
  apply (handleAnalyze_failure (stub_env (inl (Err "fetch failed")))
           "data:image/png;base64,AAAA" (Err "fetch failed") ready_world).
  - reflexivity.
  - reflexivity.
  - right. exists (fun _ => inl (Err "fetch failed")). split; reflexivity.
Defined.

End RequestAnalysis.

(* ------------------------------------------------------------------ *)
(** ** The pattern of [copyToClipboard] *)

Section CodeBlockPattern.
Context {R : Type}.

(** A literal consumes itself and nothing else. *)
Lemma matcher_lit (p s : string) (caps : Captures) (k : @Cont R) :
  matcher (lit p) s caps k
  = match strip_prefix p s with
    | Some s' => k s' caps
    | None => None
    end.
Proof.
  revert s; induction p as [|a p IH]; intros s; cbn; [reflexivity|].
  destruct s as [|b s]; [reflexivity|].
  destruct (Ascii.eqb a b); [apply IH | reflexivity].
Qed.

Lemma lazy_any_eq (k : string -> option R) (s : string) :
  lazy_any k s
  = match k s with
    | Some x => Some x
    | None =>
        match s with
        | EmptyString => None
        | String _ s' => lazy_any k s'
        end
    end.
Proof.
  destruct s; reflexivity.
Qed.

Lemma lazy_loop_any (fuel : nat) (s : string) (caps : Captures) (k : @Cont R) :
  String.length s <= fuel ->
  lazy_loop (matcher AnyChar) fuel s caps k = lazy_any (fun s' => k s' caps) s.
Proof.
  revert s; induction fuel as [|fuel IH]; intros s Hlen.
  - destruct s; [|cbn in Hlen; lia]. cbn. now destruct (k "" caps).
  - rewrite lazy_any_eq. cbn [lazy_loop]. destruct (k s caps); [reflexivity|].
    destruct s as [|c s]; [reflexivity|].
    cbn [matcher String.length].
    replace (Nat.ltb (String.length s) (S (String.length s))) with true
      by (symmetry; apply Nat.ltb_lt; lia).
    apply IH. cbn in Hlen. lia.
Qed.

End CodeBlockPattern.

Lemma find_close_sound (body inner rest : string) :
  find_close body = Some (inner, rest) -> body = inner ++ closing ++ rest.
Proof.
  revert inner; induction body as [|c body IH]; intros inner H.
  - cbn in H. discriminate.
  - cbn [find_close] in H.
    destruct (strip_prefix closing (String c body)) as [r|] eqn:Hp.
    + inversion H; subst. now apply strip_prefix_Some in Hp.
    + destruct (find_close body) as [[i r]|]; [|discriminate].
      inversion H; subst. cbn. now rewrite (IH i eq_refl).
Qed.

(** [find_close] finds a closing line whenever there is one, and the one
    it finds is the first. *)
Lemma find_close_first (inner rest : string) :
  exists inner0 rest0,
    find_close (inner ++ closing ++ rest) = Some (inner0, rest0)
    /\ String.length inner0 <= String.length inner.
Proof.
  induction inner as [|c inner [i0 [r0 [IH Hlen]]]].
  - exists "", rest. split; [|cbn; lia].
    cbn [append]. destruct rest; cbn; now rewrite ?Ascii.eqb_refl.
  - cbn [append find_close].
    destruct (strip_prefix closing (String c (inner ++ closing ++ rest)))
      as [r|].
    + exists "", r. split; [reflexivity | cbn; lia].
    + rewrite IH. exists (String c i0), r0. split; [reflexivity | cbn; lia].
Qed.

(** Two ways of cutting one text at the same length are the same way. *)
Lemma append_inj_length (a b x y : string) :
  a ++ x = b ++ y -> String.length a = String.length b -> a = b /\ x = y.
Proof.
  revert b; induction a as [|c a IH]; intros [|d b] H Hlen;
    cbn in *; try discriminate.
  - now split.
  - inversion H; subst. destruct (IH b H2) as [-> ->]; [lia|]. now split.
Qed.

Lemma substring_prefix (pre x : string) :
  substring 0 (String.length (pre ++ x) - String.length x) (pre ++ x) = pre.
Proof.
  rewrite length_append, Nat.add_sub.
  induction pre as [|c pre IH]; cbn.
  - now destruct x.
  - now rewrite IH.
Qed.

Lemma lazy_any_ext {R : Type} (k1 k2 : string -> option R) (s : string) :
  (forall s', k1 s' = k2 s') -> lazy_any k1 s = lazy_any k2 s.
Proof.
  intros H. induction s as [|c s IH]; cbn; rewrite H; [reflexivity|].
  now rewrite IH.
Qed.

(** Skipping lazily up to a closing line stops at the first one. *)
Lemma lazy_any_closing {R : Type} (F : string -> string -> R)
      (pre body : string) :
  lazy_any
    (fun s' =>
       match strip_prefix closing s' with
       | Some rest =>
           Some (F (substring 0 (String.length (pre ++ body) - String.length s')
                      (pre ++ body)) rest)
       | None => None
       end) body
  = match find_close body with
    | Some (inner, rest) => Some (F (pre ++ inner) rest)
    | None => None
    end.
Proof.
  revert pre; induction body as [|c body IH]; intros pre.
  - reflexivity.
  - rewrite lazy_any_eq. cbn [find_close].
    destruct (strip_prefix closing (String c body)) as [rest|].
    + now rewrite substring_prefix, append_empty_r.
    + replace (pre ++ String c body) with ((pre ++ String c "") ++ body)
        by now rewrite append_assoc.
      rewrite IH. destruct (find_close body) as [[inner rest]|]; [|reflexivity].
      now rewrite append_assoc.
Qed.

(** The capturing group followed by the closing line. *)
Lemma matcher_group_closing {R : Type} (n : nat) (body : string)
      (caps : Captures) (F : string -> Captures -> R) :
  matcher (Seq (Group n (LazyStar AnyChar)) (lit closing)) body caps
    (fun rest caps' => Some (F rest caps'))
  = match find_close body with
    | Some (inner, rest) => Some (F rest ((n, inner) :: caps))
    | None => None
    end.
Proof.
  change (matcher (Seq (Group n (LazyStar AnyChar)) (lit closing)) body caps
            (fun rest caps' => Some (F rest caps')))
    with (lazy_loop (matcher AnyChar) (String.length body) body caps
            (fun s' caps' =>
               matcher (lit closing) s'
                 ((n, substring 0 (String.length body - String.length s') body)
                    :: caps')
                 (fun rest caps'' => Some (F rest caps'')))).
  rewrite lazy_loop_any by lia.
  rewrite (lazy_any_ext _
             (fun s' =>
                match strip_prefix closing s' with
                | Some rest =>
                    Some (F rest
                            ((n, substring 0
                                   (String.length ("" ++ body) - String.length s')
                                   ("" ++ body)) :: caps))
                | None => None
                end)).
  - apply (lazy_any_closing (fun inner rest => F rest ((n, inner) :: caps)) "").
  - intros s'. apply (matcher_lit closing).
Qed.

Lemma match_here_code_block (s : string) :
  match_here App.code_block s
  = match strip_prefix App.fence s with
    | Some s1 =>
        or_opt
          (or_opt (tag_match "prompt" s s1)
             (or_opt (tag_match "text" s s1) (tag_match "markdown" s s1)))
          (body_match s s1)
    | None => None
    end.
Proof.
  assert (Hbody : forall s2 caps,
             matcher
               (Seq (Char LF)
                  (Seq (Group 1 (LazyStar AnyChar))
                     (Seq (Char LF) (lit App.fence)))) s2 caps
               (fun s' caps' =>
                  Some (mkMatch
                          (substring 0 (String.length s - String.length s') s)
                          caps'))
             = match s2 with
               | String c body =>
                   if Ascii.eqb LF c
                   then match find_close body with
                        | Some (inner, rest) =>
                            Some (mkMatch
                                    (substring 0
                                       (String.length s - String.length rest) s)
                                    ((1, inner) :: caps))
                        | None => None
                        end
                   else None
               | EmptyString => None
               end).
  { intros s2 caps. cbn [matcher]. destruct s2 as [|c body]; [reflexivity|].
    destruct (Ascii.eqb LF c); [|reflexivity].
    apply (matcher_group_closing 1 body caps
             (fun rest caps' =>
                mkMatch (substring 0 (String.length s - String.length rest) s)
                  caps')). }
  unfold match_here, App.code_block.
  set (body := Seq (Char LF) _) in *.
  set (k := fun (s' : string) (caps' : Captures) => Some (mkMatch _ caps')) in *.
  cbn [matcher]. rewrite matcher_lit.
  destruct (strip_prefix App.fence s) as [s1|]; [|reflexivity].
  rewrite !matcher_lit, Hbody.
  unfold or_opt, tag_match, body_match, close_match.
  destruct (strip_prefix "prompt" s1), (strip_prefix "text" s1),
    (strip_prefix "markdown" s1); rewrite ?Hbody; reflexivity.
Qed.

Lemma body_match_sound (s s2 : string) (m : MatchResult) :
  body_match s s2 = Some m ->
  exists inner rest,
    s2 = String LF (inner ++ closing ++ rest)
    /\ group m 1 = Some inner
    /\ find_close (inner ++ closing ++ rest) = Some (inner, rest).
Proof.
  unfold body_match, close_match. destruct s2 as [|c body]; [discriminate|].
  destruct (Ascii.eqb_spec LF c) as [<-|]; [|discriminate].
  destruct (find_close body) as [[inner rest]|] eqn:Hclose; [|discriminate].
  intros H; inversion H; subst; clear H.
  exists inner, rest. rewrite <- (find_close_sound _ _ _ Hclose).
  repeat split; assumption.
Qed.

Lemma tag_match_sound (tag s s1 : string) (m : MatchResult) :
  tag_match tag s s1 = Some m ->
  exists inner rest,
    s1 = tag ++ String LF (inner ++ closing ++ rest)
    /\ group m 1 = Some inner
    /\ find_close (inner ++ closing ++ rest) = Some (inner, rest).
Proof.
  unfold tag_match. destruct (strip_prefix tag s1) as [s2|] eqn:Htag;
    [|discriminate].
  intros H. destruct (body_match_sound _ _ _ H) as [inner [rest [-> Hm]]].
  exists inner, rest. split; [|exact Hm]. now apply strip_prefix_Some.
Qed.

(** An attempt that succeeds has matched a text of the shape [fenced], and
    the group is the text of that shape up to the first closing line. *)
Lemma match_here_sound (s : string) (m : MatchResult) :
  match_here App.code_block s = Some m ->
  exists tag inner rest,
    In tag block_tags
    /\ s = fenced tag inner rest
    /\ group m 1 = Some inner
    /\ find_close (inner ++ closing ++ rest) = Some (inner, rest).
Proof.
  rewrite match_here_code_block.
  destruct (strip_prefix App.fence s) as [s1|] eqn:Hfence; [|discriminate].
  apply strip_prefix_Some in Hfence. subst s. unfold or_opt.
  set (s := App.fence ++ s1).
  destruct (tag_match "prompt" s s1) as [m1|] eqn:H1;
    [|destruct (tag_match "text" s s1) as [m2|] eqn:H2;
      [|destruct (tag_match "markdown" s s1) as [m3|] eqn:H3]].
  - intros H; inversion H; subst m1.
    destruct (tag_match_sound _ _ _ _ H1) as [inner [rest [-> Hm]]].
    exists "prompt", inner, rest. cbn; intuition.
  - intros H; inversion H; subst m2.
    destruct (tag_match_sound _ _ _ _ H2) as [inner [rest [-> Hm]]].
    exists "text", inner, rest. cbn; intuition.
  - intros H; inversion H; subst m3.
    destruct (tag_match_sound _ _ _ _ H3) as [inner [rest [-> Hm]]].
    exists "markdown", inner, rest. cbn; intuition.
  - intros H.
    destruct (body_match_sound _ _ _ H) as [inner [rest [-> Hm]]].
    exists "", inner, rest. cbn; intuition.
Qed.

(** An attempt at a text of the shape [fenced] whose inner text ends at
    the first closing line succeeds, and the group is that inner text. *)
Lemma match_here_fenced (tag inner rest : string) :
  In tag block_tags ->
  find_close (inner ++ closing ++ rest) = Some (inner, rest) ->
  exists m,
    match_here App.code_block (fenced tag inner rest) = Some m
    /\ group m 1 = Some inner.
Proof.
  intros Htag Hclose. rewrite match_here_code_block.
  unfold fenced. rewrite strip_prefix_app.
  set (s := App.fence ++ _).
  assert (Hbody : body_match s (String LF (inner ++ closing ++ rest))
                  = Some (mkMatch
                            (substring 0 (String.length s - String.length rest) s)
                            [(1, inner)])).
  { unfold body_match, close_match. now rewrite Ascii.eqb_refl, Hclose. }
  eexists.
  destruct Htag as [<-|[<-|[<-|[<-|[]]]]]; unfold or_opt, tag_match.
  - rewrite strip_prefix_app, Hbody. split; reflexivity.
  - cbn [strip_prefix append Ascii.eqb Bool.eqb].
    fold (strip_prefix EmptyString). cbn [strip_prefix].
    rewrite Hbody. split; reflexivity.
  - cbn [strip_prefix append Ascii.eqb Bool.eqb].
    rewrite Hbody. split; reflexivity.
  - cbn [strip_prefix append Ascii.eqb Bool.eqb LF ascii_of_nat].
    rewrite Hbody. split; reflexivity.
Qed.

(** The search takes the first start position at which an attempt
    succeeds. *)
Lemma exec_here (r : Regex) (s : string) (m : MatchResult) :
  match_here r s = Some m -> exec r s = Some m.
Proof.
  intros H. destruct s; cbn; now rewrite H.
Qed.


Lemma exec_sound (s : string) (m : MatchResult) :
  exec App.code_block s = Some m ->
  exists pre tag inner rest,
    In tag block_tags
    /\ s = pre ++ fenced tag inner rest
    /\ group m 1 = Some inner.
Proof.
  assert (Hhere : forall t, match_here App.code_block t = Some m ->
                        exists pre tag inner rest,
                          In tag block_tags
                          /\ t = pre ++ fenced tag inner rest
                          /\ group m 1 = Some inner).
  { intros t H.
    destruct (match_here_sound _ _ H) as [tag [inner [rest [Ht [-> [Hm _]]]]]].
    exists "", tag, inner, rest. repeat split; assumption. }
  induction s as [|c s IH]; cbn [exec].
  - destruct (match_here App.code_block "") eqn:H; [|discriminate].
    intros E; inversion E; subst. now apply Hhere.
  - destruct (match_here App.code_block (String c s)) eqn:H.
    + intros E; inversion E; subst. now apply Hhere.
    + intros E. destruct (IH E) as [pre [tag [inner [rest [Ht [-> Hm]]]]]].
      exists (String c pre), tag, inner, rest. repeat split; assumption.
Qed.

Lemma match_here_complete (tag inner rest : string) :
  In tag block_tags ->
  match_here App.code_block (fenced tag inner rest) <> None.
Proof.
  intros Htag.
  destruct (find_close_first inner rest) as [i0 [r0 [Hclose _]]].
  pose proof (find_close_sound _ _ _ Hclose) as Heq.
  unfold fenced. rewrite Heq. rewrite Heq in Hclose.
  destruct (match_here_fenced tag i0 r0 Htag Hclose) as [m [Hm _]].
  unfold fenced in Hm. now rewrite Hm.
Qed.

Lemma exec_complete (s : string) :
  has_block block_tags s -> exec App.code_block s <> None.
Proof.
  intros [pre [tag [inner [rest [Htag ->]]]]].
  induction pre as [|c pre IH].
  - cbn [append].
    destruct (match_here App.code_block (fenced tag inner rest)) as [m|] eqn:H.
    + now rewrite (exec_here _ _ _ H).
    + now apply match_here_complete in H.
  - cbn [append exec].
    destruct (match_here App.code_block
                (String c (pre ++ fenced tag inner rest))); [discriminate|].
    exact IH.
Qed.

Lemma contains_app (pre sub rest : string) :
  contains sub (pre ++ sub ++ rest) = true.
Proof.
  induction pre as [|c pre IH]; cbn [append].
  - destruct (sub ++ rest) eqn:E; cbn [contains]; rewrite <- E;
      now rewrite strip_prefix_app.
  - cbn [contains]. rewrite IH.
    now destruct (strip_prefix sub (String c (pre ++ sub ++ rest))).
Qed.

(** The run of [copyToClipboard] with a result at hand. *)
Lemma copyToClipboard_run (w : World) (res : string) :
  result (ui w) = Some res ->
  truthy_string res = true ->
  App.copyToClipboard w
  = (Normal tt,
     mkWorld
       (mkUI (image (ui w)) (mimeType (ui w)) (analyzing (ui w))
          (result (ui w)) true)
       (network w) (console w) (clipboard w ++ [App.textToCopy res])
       (readers w) (timers w ++ [(clock w + 2000, ClearCopied)]) (clock w)).
Proof.
  intros Hres Htruthy. unfold App.copyToClipboard.
  rewrite Hres, Htruthy.
  cbv [negb bind clipboard_writeText setCopied setTimeout with_ui].
  cbn [ui network console clipboard readers timers clock
       image mimeType analyzing result copied].
  now rewrite Hres.
Qed.

(** Without a result (the cell is [null] or holds the empty string),
    [copyToClipboard] does nothing. *)
Lemma copyToClipboard_no_result (w : World) :
  truthy (result (ui w)) = false -> App.copyToClipboard w = (Normal tt, w).
Proof.
  unfold App.copyToClipboard, truthy. intros H.
  destruct (result (ui w)) as [res|]; [|reflexivity].
  now rewrite H.
Qed.

(* ------------------------------------------------------------------ *)
(** ** Copying the result: [copyToClipboard] *)

(** The text that is copied, in terms of the places of the result that
    have the shape of the pattern. *)
Lemma textToCopy_spec (res : string) :
  (exists pre tag inner rest,
      In tag block_tags
      /\ res = pre ++ fenced tag inner rest
      /\ App.textToCopy res = inner)
  \/ (~ has_block block_tags res /\ App.textToCopy res = res).
Proof.
  unfold App.textToCopy.
  destruct (exec App.code_block res) as [m|] eqn:Hexec.
  - left. destruct (exec_sound _ _ Hexec) as [pre [tag [inner [rest [Ht [E Hm]]]]]].
    exists pre, tag, inner, rest. rewrite Hm. repeat split; assumption.
  - right. split; [|reflexivity].
    intros Hblock. now apply exec_complete in Hblock.
Qed.



Lemma strip_prefix_extend (p x r y : string) :
  strip_prefix p x = Some r -> strip_prefix p (x ++ y) = Some (r ++ y).
Proof.
  intros H. apply strip_prefix_Some in H. subst x.
  now rewrite append_assoc, strip_prefix_app.
Qed.










Example scenario_copies_prompt :
  clipboard (exec_js App.copyToClipboard (world_with_result scenario_result))
  = ["cat on a chair"].
Proof. reflexivity. Qed.

(** C10. The code does not do what C10 says. In the first result below a
    block tagged [json] comes before a block tagged [prompt] and a block
    tagged [text]; the first block that matches the pattern is the one
    tagged [prompt], whose content is [cat]. What is copied is the opening
    fence and the tag of that block with its content: the three backquotes
    that close the first block are taken for an opening fence without a
    tag. In the second result, for the same reason, the prose between two
    blocks is copied, which is the content of no block. *)
Theorem copyToClipboard_takes_closing_fence_for_opening :
  clipboard (exec_js App.copyToClipboard
               (world_with_result other_tag_first_result))
  = [lines ["```prompt"; "cat"]]
  /\ clipboard (exec_js App.copyToClipboard
                  (world_with_result prose_between_result))
     = ["after"].
Proof.
  split; vm_compute; reflexivity.
Qed.

(* ------------------------------------------------------------------ *)
(** ** The copied indicator and its timers *)

Section CopiedIndicator.
Import EventLoop.

(** Every timer callback of the program lowers the indicator, so firing
    any timers at all leaves it down. *)
Lemma fire_ui (due : list (nat * TimerCallback)) (w : World) :
  ui (fire due w)
  = match due with
    | [] => ui w
    | _ :: _ =>
        mkUI (image (ui w)) (mimeType (ui w)) (analyzing (ui w))
          (result (ui w)) false
    end.
Proof.
  revert w; induction due as [|[t cb] due IH]; intros w; [reflexivity|].
  cbn [fire]. rewrite IH. destruct cb. destruct due; reflexivity.
Qed.

Lemma fire_timers (due : list (nat * TimerCallback)) (w : World) :
  timers (fire due w) = timers w /\ clock (fire due w) = clock w.
Proof.
  revert w; induction due as [|[t cb] due IH]; intros w; [now split|].
  cbn [fire]. destruct (IH (exec_js (App.run_callback cb) w)) as [-> ->].
  destruct cb. now split.
Qed.

Lemma advance_to_result (t : nat) (w : World) :
  result (ui (advance_to t w)) = result (ui w).
Proof.
  unfold advance_to. rewrite fire_ui.
  now destruct (filter _ (timers w)).
Qed.

Lemma advance_to_clock (t : nat) (w : World) :
  clock (advance_to t w) = Nat.max (clock w) t.
Proof.
  unfold advance_to. now rewrite (proj2 (fire_timers _ _)).
Qed.

Lemma advance_to_timers (t : nat) (w : World) :
  timers (advance_to t w)
  = filter (fun timer => negb (is_due (Nat.max (clock w) t) timer)) (timers w).
Proof.
  unfold advance_to. now rewrite (proj1 (fire_timers _ _)).
Qed.

(** When a pending timer is due by the time the clock is advanced to, the
    indicator is down afterwards. *)
Lemma advance_to_clears (t : nat) (w : World) (timer : nat * TimerCallback) :
  In timer (timers w) ->
  fst timer <= t ->
  copied (ui (advance_to t w)) = false.
Proof.
  intros Hin Hdue. unfold advance_to. rewrite fire_ui.
  destruct (filter (is_due (Nat.max (clock w) t)) (timers w)) as [|x l] eqn:E;
    [|reflexivity].
  exfalso.
  assert (Hf : In timer (filter (is_due (Nat.max (clock w) t)) (timers w))).
  { apply filter_In. split; [assumption|].
    unfold is_due. apply Nat.leb_le. lia. }
  rewrite E in Hf. exact Hf.
Qed.

(** One invocation, at time [t], with a result at hand: the indicator is
    up, and a timer is set 2000 ms after the time of the invocation. *)
Lemma copy_at_one (t : nat) (w : World) :
  truthy (result (ui w)) = true ->
  let w' := exec_js App.copyToClipboard (advance_to t w) in
  copied (ui w') = true
  /\ result (ui w') = result (ui w)
  /\ clock w' = Nat.max (clock w) t
  /\ timers w' = (timers (advance_to t w)
                  ++ [(Nat.max (clock w) t + 2000, ClearCopied)])%list.
Proof.
  intros Htruthy w'. subst w'.
  pose proof (advance_to_result t w) as Hres.
  destruct (result (ui (advance_to t w))) as [res|] eqn:E;
    [|rewrite <- Hres in Htruthy; discriminate].
  rewrite <- Hres in Htruthy. cbn in Htruthy.
  unfold exec_js. rewrite (copyToClipboard_run _ res E Htruthy).
  cbn [snd ui copied result clock timers].
  rewrite advance_to_clock, E. repeat split; congruence.
Qed.

Lemma copy_at_app (l1 l2 : list nat) (w : World) :
  copy_at (l1 ++ l2) w = copy_at l2 (copy_at l1 w).
Proof.
  revert w; induction l1 as [|t l1 IH]; intros w; [reflexivity|].
  cbn [copy_at app]. apply IH.
Qed.

Lemma copy_at_result (times : list nat) (w : World) :
  truthy (result (ui w)) = true ->
  result (ui (copy_at times w)) = result (ui w).
Proof.
  revert w; induction times as [|t times IH]; intros w H; [reflexivity|].
  cbn [copy_at].
  destruct (copy_at_one t w H) as [_ [Hres _]].
  rewrite IH; [exact Hres | now rewrite Hres].
Qed.

(** While the clock has not reached the time a timer is due, invocations
    before that time leave the timer pending. *)
Lemma copy_at_keeps_timer (times : list nat) (w : World)
      (timer : nat * TimerCallback) :
  truthy (result (ui w)) = true ->
  In timer (timers w) ->
  clock w < fst timer ->
  Forall (fun t => t < fst timer) times ->
  In timer (timers (copy_at times w))
  /\ clock (copy_at times w) < fst timer.
Proof.
  revert w; induction times as [|t times IH]; intros w Htruthy Hin Hclock Hall;
    [now split|].
  inversion Hall as [|? ? Ht Hall']; subst.
  cbn [copy_at].
  destruct (copy_at_one t w Htruthy) as [_ [Hres [Hclk Htimers]]].
  apply IH; [now rewrite Hres | | rewrite Hclk; lia | assumption].
  rewrite Htimers. apply in_or_app. left.
  rewrite advance_to_timers. apply filter_In. split; [assumption|].
  unfold is_due. apply negb_true_iff, Nat.leb_gt. lia.
Qed.

Lemma copy_at_clock_le (times : list nat) (w : World) (t0 : nat) :
  truthy (result (ui w)) = true ->
  clock w <= t0 ->
  Forall (fun t => t <= t0) times ->
  clock (copy_at times w) <= t0.
Proof.
  revert w; induction times as [|t times IH]; intros w Htruthy Hclock Hall;
    [assumption|].
  inversion Hall as [|? ? Ht Hall']; subst.
  cbn [copy_at].
  destruct (copy_at_one t w Htruthy) as [_ [Hres [Hclk _]]].
  apply IH; [now rewrite Hres | rewrite Hclk; lia | assumption].
Qed.

(** C8. Take any sequence of invocations of [copyToClipboard] with a
    result at hand, and in it an invocation at time [t0] such that the
    invocations after it fall within the 2000 ms that follow [t0]. Right
    after each invocation of the sequence the copied indicator is up; and
    once the clock has reached [t0 + 2000] the indicator is down, however
    many invocations there were within those 2000 ms. *)
Theorem copied_indicator_window (w : World) (earlier : list nat) (t0 : nat)
        (times : list nat) :
  truthy (result (ui w)) = true ->
  clock w <= t0 ->
  Forall (fun t => t <= t0) earlier ->
  Forall (fun t => t0 <= t /\ t < t0 + 2000) times ->
  (forall n,
      copied (ui (copy_at (firstn (S n) (earlier ++ t0 :: times)) w)) = true)
  /\ (forall T, t0 + 2000 <= T ->
                copied (ui (advance_to T
                              (copy_at (earlier ++ t0 :: times) w))) = false).
Proof.
  intros Htruthy Hclock Hearlier Hwindow. split.
  - intros n.
    destruct (exists_last (l := firstn (S n) (earlier ++ t0 :: times)))
      as [l [t E]]; [destruct earlier; discriminate|].
    rewrite E, copy_at_app. cbn [copy_at].
    apply copy_at_one. now rewrite copy_at_result.
  - intros T HT. rewrite copy_at_app. cbn [copy_at].
    set (w0 := copy_at earlier w).
    assert (Htruthy0 : truthy (result (ui w0)) = true)
      by (subst w0; now rewrite copy_at_result).
    assert (Hclock0 : clock w0 <= t0)
      by (subst w0; now apply copy_at_clock_le).
    destruct (copy_at_one t0 w0 Htruthy0) as [_ [Hres [Hclk Htimers]]].
    set (w1 := exec_js App.copyToClipboard (advance_to t0 w0)) in *.
    assert (Hmax : Nat.max (clock w0) t0 = t0) by lia.
    rewrite Hmax in Hclk, Htimers.
    destruct (copy_at_keeps_timer times w1 (t0 + 2000, ClearCopied))
      as [Hin _].
    + now rewrite Hres.
    + rewrite Htimers. apply in_or_app. right. now left.
    + cbn [fst]. lia.
    + cbn [fst]. eapply Forall_impl; [|exact Hwindow]. cbn. intros; lia.
    + apply (advance_to_clears T _ _ Hin). exact HT.
Qed.

Lemma copied_indicator_window_witness :
  (forall n,
      copied (ui (copy_at (firstn (S n) ([100; 2500] ++ 3000 :: [3700; 4500]))
                    (world_with_result scenario_result))) = true)
  /\ (forall T, 3000 + 2000 <= T ->
                copied (ui (advance_to T
                              (copy_at ([100; 2500] ++ 3000 :: [3700; 4500])
                                 (world_with_result scenario_result)))) = false).
Proof.
  apply (copied_indicator_window (world_with_result scenario_result)
           [100; 2500] 3000 [3700; 4500]).
  - reflexivity.
  - cbn [clock world_with_result]. lia.
  - repeat (apply Forall_cons; [lia|]). apply Forall_nil.
  - repeat (apply Forall_cons; [lia|]). apply Forall_nil.
Defined.

(** The window is the one of the first invocation: a later invocation
    does not prolong it. With invocations at 0 and at 1500, the indicator
    is up at 1999 and down at 2000. *)
Example second_invocation_does_not_prolong :
  copied (ui (advance_to 1999 (copy_at [0; 1500]
                                 (world_with_result scenario_result)))) = true
  /\ copied (ui (advance_to 2000 (copy_at [0; 1500]
                                    (world_with_result scenario_result)))) = false.
Proof. split; vm_compute; reflexivity. Qed.

End CopiedIndicator.

(* ================================================================== *)
(** * Further properties of the handlers *)

(** ** The two halves of [handleAnalyze] *)

Lemma analyzeImage_service (env : Gemini.Env) (img mime : string) (w : World) :
  GeminiService.analyzeImage env img mime w
  = (fst (service_call env img mime),
     mkWorld (ui w) (network w ++ snd (service_call env img mime))
       (console w) (clipboard w) (readers w) (timers w) (clock w)).
Proof.
  unfold service_call.
  destruct (Gemini.GoogleGenAI env (Gemini.GEMINI_API_KEY env)) as [e|ai] eqn:Hai.
  - rewrite (analyzeImage_no_client env e img mime w Hai).
    cbn [fst snd]. rewrite app_nil_r. now destruct w.
  - now rewrite (analyzeImage_run env ai img mime w Hai).
Qed.

Lemma handleAnalyze_begin_run (env : Gemini.Env) (img : string) (w : World) :
  image (ui w) = Some img ->
  truthy_string img = true ->
  Session.handleAnalyze_begin env w
  = (Some (fst (service_call env img (mimeType (ui w)))),
     mkWorld
       (mkUI (image (ui w)) (mimeType (ui w)) true (result (ui w))
          (copied (ui w)))
       (network w ++ snd (service_call env img (mimeType (ui w))))
       (console w) (clipboard w) (readers w) (timers w) (clock w)).
Proof.
  intros Himg Htruthy. unfold Session.handleAnalyze_begin.
  rewrite Himg, Htruthy. cbv [negb setAnalyzing with_ui].
  rewrite analyzeImage_service.
  cbn [ui network console clipboard readers timers clock
       image mimeType analyzing result copied].
  now rewrite Himg.
Qed.

Lemma handleAnalyze_begin_no_image (env : Gemini.Env) (w : World) :
  truthy (image (ui w)) = false ->
  Session.handleAnalyze_begin env w = (None, w).
Proof.
  unfold Session.handleAnalyze_begin, truthy. intros H.
  destruct (image (ui w)) as [img|]; [|reflexivity].
  now rewrite H.
Qed.

Lemma handleAnalyze_resume_run (c : Completion (option string)) (w : World) :
  Session.handleAnalyze_resume c w
  = (Normal tt,
     mkWorld
       (mkUI (image (ui w)) (mimeType (ui w)) false (Some (shown_result c))
          (copied (ui w)))
       (network w) (console w ++ logged_error c) (clipboard w) (readers w)
       (timers w) (clock w)).
Proof.
  destruct c as [t|e]; cbn; rewrite ?app_nil_r; reflexivity.
Qed.

Lemma or_else_truthy (a : option string) (b : string) :
  truthy_string b = true -> truthy_string (or_else a b) = true.
Proof.
  intros Hb. unfold or_else. destruct a as [s|]; [|exact Hb].
  destruct (truthy_string s) eqn:Hs; assumption.
Qed.

Lemma shown_result_truthy (c : Completion (option string)) :
  truthy_string (shown_result c) = true.
Proof.
  destruct c as [t|e]; [|reflexivity]. now apply or_else_truthy.
Qed.

(** The whole handler is its first half followed, when the promise
    settles at once, by its second half. *)
Lemma handleAnalyze_split (env : Gemini.Env) (w : World) :
  App.handleAnalyze env w
  = match Session.handleAnalyze_begin env w with
    | (Some c, w') => Session.handleAnalyze_resume c w'
    | (None, w') => (Normal tt, w')
    end.
Proof.
  destruct (image (ui w)) as [img|] eqn:Himg.
  - destruct (truthy_string img) eqn:Htruthy.
    + rewrite (handleAnalyze_begin_run env img w Himg Htruthy).
      rewrite handleAnalyze_resume_run. cbn [ui network console clipboard
        readers timers clock image mimeType analyzing result copied].
      unfold service_call.
      destruct (Gemini.GoogleGenAI env (Gemini.GEMINI_API_KEY env))
        as [e|ai] eqn:Hai.
      * rewrite (handleAnalyze_run_no_client env e img w Himg Htruthy Hai).
        unfold settled. cbn. now rewrite Himg.
      * rewrite (handleAnalyze_run env ai img w Himg Htruthy Hai).
        destruct (ai (GeminiService.request img (mimeType (ui w))));
          unfold settled; cbn; rewrite ?app_nil_r, ?Himg; reflexivity.
    + rewrite handleAnalyze_begin_no_image, handleAnalyze_no_image;
        unfold truthy; rewrite ?Himg; auto.
  - rewrite handleAnalyze_begin_no_image, handleAnalyze_no_image;
      unfold truthy; rewrite ?Himg; auto.
Qed.

(** X1. Whatever the environment does, [handleAnalyze] returns normally.
    It leaves the image, its type, the copied flag, the clipboard, the
    file readers, the timers and the clock as they were, and sends at most
    one request. When it started with an image, it ends with the analyzing
    flag down and with a result that is not empty. *)
Theorem handleAnalyze_always_settles (env : Gemini.Env) (w : World) :
  exists w',
    App.handleAnalyze env w = (Normal tt, w')
    /\ image (ui w') = image (ui w)
    /\ mimeType (ui w') = mimeType (ui w)
    /\ copied (ui w') = copied (ui w)
    /\ clipboard w' = clipboard w
    /\ readers w' = readers w
    /\ timers w' = timers w
    /\ clock w' = clock w
    /\ (exists sent, network w' = (network w ++ sent)%list /\ length sent <= 1)
    /\ (truthy (image (ui w)) = true ->
        analyzing (ui w') = false /\ truthy (result (ui w')) = true).
Proof.
  rewrite handleAnalyze_split.
  destruct (truthy (image (ui w))) eqn:Htruthy.
  - unfold truthy in Htruthy.
    destruct (image (ui w)) as [img|] eqn:Himg; [|discriminate].
    rewrite (handleAnalyze_begin_run env img w Himg Htruthy).
    rewrite handleAnalyze_resume_run. eexists. split; [reflexivity|].
    cbn [ui network console clipboard readers timers clock
         image mimeType analyzing result copied truthy].
    rewrite Himg. repeat split.
    + exists (snd (service_call env img (mimeType (ui w)))).
      split; [reflexivity|]. unfold service_call.
      destruct (Gemini.GoogleGenAI env (Gemini.GEMINI_API_KEY env));
        cbn; lia.
    + apply shown_result_truthy.
  - rewrite (handleAnalyze_begin_no_image env w Htruthy).
    exists w. repeat split; try discriminate.
    exists []. split; [now rewrite app_nil_r | cbn; lia].
Qed.

(** ** More on what is copied *)

Lemma exec_sound_first (s : string) (m : MatchResult) :
  exec App.code_block s = Some m ->
  exists pre tag inner rest,
    In tag block_tags
    /\ s = pre ++ fenced tag inner rest
    /\ group m 1 = Some inner
    /\ find_close (inner ++ closing ++ rest) = Some (inner, rest).
Proof.
  assert (Hhere : forall t, match_here App.code_block t = Some m ->
                        exists pre tag inner rest,
                          In tag block_tags
                          /\ t = pre ++ fenced tag inner rest
                          /\ group m 1 = Some inner
                          /\ find_close (inner ++ closing ++ rest)
                             = Some (inner, rest)).
  { intros t H.
    destruct (match_here_sound _ _ H) as [tag [inner [rest [Ht [-> [Hm Hc]]]]]].
    exists "", tag, inner, rest. repeat split; assumption. }
  induction s as [|c s IH]; cbn [exec].
  - destruct (match_here App.code_block "") eqn:H; [|discriminate].
    intros E; inversion E; subst. now apply Hhere.
  - destruct (match_here App.code_block (String c s)) eqn:H.
    + intros E; inversion E; subst. now apply Hhere.
    + intros E.
      destruct (IH E) as [pre [tag [inner [rest [Ht [-> [Hm Hc]]]]]]].
      exists (String c pre), tag, inner, rest. repeat split; assumption.
Qed.

(** The text before the first closing line holds no closing line. *)
Lemma find_close_no_closing (x inner rest : string) :
  find_close x = Some (inner, rest) -> contains closing inner = false.
Proof.
  revert inner; induction x as [|c x IH]; intros inner H; [discriminate|].
  cbn [find_close] in H.
  destruct (strip_prefix closing (String c x)) as [r0|] eqn:Hp.
  - inversion H; subst. reflexivity.
  - destruct (find_close x) as [[i r]|] eqn:Hx; [|discriminate].
    inversion H; subst. cbn [contains].
    destruct (strip_prefix closing (String c i)) as [q|] eqn:Hq.
    + exfalso.
      pose proof (strip_prefix_extend _ _ _ (closing ++ rest) Hq) as Hext.
      cbn [append] in Hext.
      rewrite <- (find_close_sound _ _ _ Hx), Hp in Hext. discriminate.
    + now apply IH.
Qed.

Lemma has_block_contains_closing (s : string) :
  has_block block_tags s -> contains closing s = true.
Proof.
  intros [pre [tag [inner [rest [_ ->]]]]]. unfold fenced.
  replace (pre ++ App.fence ++ tag ++ String LF (inner ++ closing ++ rest))
    with ((pre ++ App.fence ++ tag ++ String LF inner) ++ closing ++ rest)
    by reassoc.
  apply contains_app.
Qed.

(** X2. What is copied is always a piece of the result: the result is some
    text, then the copied text, then some text. Nothing is copied that the
    result does not hold. *)
Theorem textToCopy_is_piece_of_result (res : string) :
  exists before after, res = before ++ App.textToCopy res ++ after.
Proof.
  destruct (textToCopy_spec res)
    as [[pre [tag [inner [rest [_ [E ->]]]]]] | [_ ->]].
  - exists (pre ++ App.fence ++ tag ++ String LF ""), (closing ++ rest).
    rewrite E at 1. unfold fenced. reassoc.
  - exists "", "". cbn [append]. now rewrite append_empty_r.
Qed.

Lemma textToCopy_no_closing (res : string) :
  contains closing res = false -> App.textToCopy res = res.
Proof.
  intros Hnone.
  destruct (textToCopy_spec res) as [[pre [tag [inner [rest [Ht [E _]]]]]] | [_ H]];
    [|exact H].
  assert (Hb : has_block block_tags res) by now exists pre, tag, inner, rest.
  apply has_block_contains_closing in Hb. congruence.
Qed.

(** X3. A result in which no line starts with a fence (no line feed is
    followed by three backquotes) is copied in full; so are the two fixed
    messages of [handleAnalyze]. *)
Theorem textToCopy_without_closing_line (res : string) :
  contains closing res = false -> App.textToCopy res = res.
Proof.
  exact (textToCopy_no_closing res).
Qed.

Lemma textToCopy_without_closing_line_witness :
  App.textToCopy App.error_message = App.error_message
  /\ App.textToCopy App.no_prompt_message = App.no_prompt_message.
Proof.
  split; apply textToCopy_without_closing_line; reflexivity.
Defined.

(** X4. The copied text holds no closing line of its own when it was taken
    from a block, and copying is idempotent: what would be copied from the
    copied text is the copied text. *)
Theorem textToCopy_idempotent (res : string) :
  (has_block block_tags res ->
   contains closing (App.textToCopy res) = false)
  /\ App.textToCopy (App.textToCopy res) = App.textToCopy res.
Proof.
  assert (H : has_block block_tags res ->
              contains closing (App.textToCopy res) = false).
  { intros Hb. unfold App.textToCopy.
    destruct (exec App.code_block res) as [m|] eqn:Hexec.
    - destruct (exec_sound_first _ _ Hexec)
        as [pre [tag [inner [rest [_ [_ [Hm Hc]]]]]]].
      rewrite Hm. cbn [to_DOMString].
      exact (find_close_no_closing _ _ _ Hc).
    - now apply exec_complete in Hb. }
  split; [exact H|].
  destruct (textToCopy_spec res) as [[pre [tag [inner [rest [Ht [E Hc]]]]]] | [_ Hc]].
  - apply textToCopy_no_closing. apply H.
    now exists pre, tag, inner, rest.
  - now rewrite !Hc.
Qed.

Lemma textToCopy_idempotent_witness :
  contains closing (App.textToCopy scenario_result) = false.
Proof.
  apply (proj1 (textToCopy_idempotent scenario_result)).
  exists ("### Prompt" ++ String LF ""), "prompt", "cat on a chair", "".
  split; [cbn; tauto | reflexivity].
Defined.

(** ** More on the inline data *)

Lemma split_pieces_no_sep (sep : ascii) (s : string) :
  Forall (fun piece => has_char sep piece = false) (split sep s).
Proof.
  induction s as [|c s IH]; cbn [split].
  - now constructor.
  - destruct (Ascii.eqb c sep) eqn:Hc.
    + now constructor.
    + destruct (split sep s) as [|piece pieces].
      * constructor; [cbn; now rewrite Hc | constructor].
      * inversion IH; subst. constructor; [|assumption].
        cbn. now rewrite Hc.
Qed.

Lemma split_second_piece (sep : ascii) (s : string) :
  has_char sep s = true ->
  exists first second pieces, split sep s = first :: second :: pieces.
Proof.
  induction s as [|c s IH]; cbn [has_char split]; [discriminate|].
  destruct (Ascii.eqb c sep) eqn:Hc; cbn [orb].
  - intros _. destruct s as [|d s]; cbn [split].
    + now exists "", "", [].
    + destruct (Ascii.eqb d sep).
      * now exists "", "", (split sep s).
      * destruct (split sep s) as [|piece pieces];
          [now exists "", (String d ""), [] | now exists "", (String d piece), pieces].
  - intros H. destruct (IH H) as [first [second [pieces ->]]].
    now exists (String c first), second, pieces.
Qed.

(** X5. The inline data of the request is missing exactly when the input
    holds no comma; and when it is there it holds no comma itself. *)
Theorem inline_data_missing_iff_no_comma (base64Image : string) :
  (GeminiService.inline_data base64Image = None
   <-> has_char "," base64Image = false)
  /\ (forall data,
         GeminiService.inline_data base64Image = Some data ->
         has_char "," data = false).
Proof.
  unfold GeminiService.inline_data, index. split; [split|].
  - intros Hnone. destruct (has_char "," base64Image) eqn:Hc; [|reflexivity].
    destruct (split_second_piece _ _ Hc) as [first [second [pieces E]]].
    rewrite E in Hnone. discriminate.
  - intros Hc. now rewrite (split_no_sep _ _ Hc).
  - intros data Hsome.
    pose proof (split_pieces_no_sep "," base64Image) as Hall.
    rewrite Forall_forall in Hall. apply Hall.
    eapply nth_error_In. exact Hsome.
Qed.

Lemma inline_data_missing_iff_no_comma_witness :
  has_char "," "AAAA" = false.
Proof.
  apply (proj2 (inline_data_missing_iff_no_comma "data:image/png;base64,AAAA")
           "AAAA").
  reflexivity.
Defined.

(** ** More on selecting files *)

Lemma handleFile_run (file : Dom.File) (w : World) :
  App.handleFile file w
  = (Normal tt,
     if startsWith (Dom.type file) "image/"
     then Session.with_readers (readers w ++ [file]) w
     else w).
Proof.
  unfold App.handleFile.
  destruct (startsWith (Dom.type file) "image/"); reflexivity.
Qed.



(** X7. The read that completes last wins: a load event overwrites all
    that an earlier load event stored, so after two of them the state is
    the one the second alone would have given. *)
Theorem last_load_wins (file1 file2 : Dom.File) (e1 e2 : Dom.ProgressEvent)
        (w : World) :
  exec_js (App.onload file2 e2) (exec_js (App.onload file1 e1) w)
  = exec_js (App.onload file2 e2) w.
Proof.
  reflexivity.
Qed.

(** ** The component in use *)

Section InUse.
Import Session.
Variable env : Gemini.Env.

Lemma run_app (events1 events2 : list Event) (s : Session) :
  run env (events1 ++ events2) s = run env events2 (run env events1 s).
Proof.
  revert s; induction events1 as [|ev events1 IH]; intros s; [reflexivity|].
  cbn [run app]. apply IH.
Qed.

(** A property of the mounted component that every event preserves holds
    after any events. *)
Lemma run_invariant (P : Session -> Prop) :
  P initial ->
  (forall ev s, P s -> P (dispatch env ev s)) ->
  forall events, P (run env events initial).
Proof.
  intros Hinit Hstep events.
  assert (H : forall s, P s -> P (run env events s)).
  { induction events as [|ev events IH]; intros s Hs; [exact Hs|].
    cbn [run]. apply IH, Hstep, Hs. }
  now apply H.
Qed.

Lemma fire_frame (due : list (nat * TimerCallback)) (w : World) :
  network (EventLoop.fire due w) = network w
  /\ console (EventLoop.fire due w) = console w
  /\ clipboard (EventLoop.fire due w) = clipboard w
  /\ readers (EventLoop.fire due w) = readers w.
Proof.
  revert w; induction due as [|[t cb] due IH]; intros w; [now repeat split|].
  cbn [EventLoop.fire].
  destruct (IH (exec_js (App.run_callback cb) w)) as [-> [-> [-> ->]]].
  destruct cb. now repeat split.
Qed.

Lemma advance_to_frame (t : nat) (w : World) :
  network (EventLoop.advance_to t w) = network w
  /\ console (EventLoop.advance_to t w) = console w
  /\ clipboard (EventLoop.advance_to t w) = clipboard w
  /\ readers (EventLoop.advance_to t w) = readers w
  /\ image (ui (EventLoop.advance_to t w)) = image (ui w)
  /\ mimeType (ui (EventLoop.advance_to t w)) = mimeType (ui w)
  /\ analyzing (ui (EventLoop.advance_to t w)) = analyzing (ui w)
  /\ result (ui (EventLoop.advance_to t w)) = result (ui w).
Proof.
  unfold EventLoop.advance_to.
  destruct (fire_frame
              (filter (EventLoop.is_due (Nat.max (clock w) t)) (timers w))
              (mkWorld (ui w) (network w) (console w) (clipboard w) (readers w)
                 (filter (fun timer =>
                            negb (EventLoop.is_due (Nat.max (clock w) t) timer))
                    (timers w))
                 (Nat.max (clock w) t))) as [-> [-> [-> ->]]].
  rewrite fire_ui.
  destruct (filter (EventLoop.is_due (Nat.max (clock w) t)) (timers w));
    now repeat split.
Qed.

Lemma Forall_remove_nth {A : Type} (P : A -> Prop) (i : nat) (l : list A) :
  Forall P l -> Forall P (remove_nth i l).
Proof.
  revert i; induction l as [|x l IH]; intros i H; [now destruct i|].
  inversion H; subst. destruct i; cbn; [assumption|].
  constructor; [assumption | now apply IH].
Qed.

(** The run of the copy button, rendered or not. *)
Lemma copy_click_run (w : World) :
  copy_button_rendered (ui w) = true ->
  exists res,
    result (ui w) = Some res
    /\ exec_js App.copyToClipboard w
       = mkWorld
           (mkUI (image (ui w)) (mimeType (ui w)) (analyzing (ui w))
              (result (ui w)) true)
           (network w) (console w) (clipboard w ++ [App.textToCopy res])
           (readers w) (timers w ++ [(clock w + 2000, ClearCopied)]) (clock w).
Proof.
  unfold copy_button_rendered, truthy. intros H.
  destruct (result (ui w)) as [res|] eqn:Hres; [|discriminate].
  exists res. split; [reflexivity|].
  unfold exec_js. rewrite (copyToClipboard_run w res Hres H).
  cbn [snd]. now rewrite ?Hres.
Qed.

End InUse.

Section Steps.
Import Session.
Variable env : Gemini.Env.

Lemma exec_handleFile_step (file : Dom.File) (s : Session) :
  step env s (mkSession (exec_js (App.handleFile file) (world s)) (pending s)).
Proof.
  destruct s as [w ps]. unfold exec_js. rewrite handleFile_run. cbn [snd world pending].
  destruct (startsWith (Dom.type file) "image/") eqn:H.
  - now apply step_read.
  - apply step_none.
Qed.

(** Every event makes one of the steps of [step]. *)
Lemma dispatch_step (ev : Event) (s : Session) :
  step env s (dispatch env ev s).
Proof.
  destruct ev as [files|files|i e| |i| |t]; cbn [dispatch].
  - destruct files as [|file others]; cbn [App.onDrop].
    + destruct s. apply step_none.
    + apply exec_handleFile_step.
  - destruct files as [[|file others]|]; cbn [onChange].
    + destruct s. apply step_none.
    + apply exec_handleFile_step.
    + destruct s. apply step_none.
  - destruct (nth_error (readers (world s)) i) as [file|] eqn:Hi;
      [|apply step_none].
    destruct s as [w ps]. cbn [world pending] in *.
    apply (step_load env w ps i file
             (match Dom.target e with
              | Some reader => Dom.result reader
              | None => None
              end) Hi).
  - destruct (App.analyze_button_disabled (ui (world s))) eqn:Hd;
      [apply step_none|].
    destruct s as [w ps]. cbn [world pending] in *.
    unfold App.analyze_button_disabled in Hd.
    apply orb_false_iff in Hd as [Himg Han].
    apply negb_false_iff in Himg. unfold truthy in Himg.
    destruct (image (ui w)) as [img|] eqn:E; [|discriminate].
    rewrite (handleAnalyze_begin_run env img w E Himg).
    now apply step_begin.
  - destruct (nth_error (pending s) i) as [c|] eqn:Hi; [|apply step_none].
    destruct s as [w ps]. cbn [world pending] in *.
    unfold exec_js. rewrite handleAnalyze_resume_run. cbn [snd].
    now apply step_settle.
  - destruct (copy_button_rendered (ui (world s))) eqn:Hr; [|apply step_none].
    destruct s as [w ps]. cbn [world pending] in *.
    destruct (copy_click_run w Hr) as [res [Hres ->]].
    apply step_copy; [assumption|].
    unfold copy_button_rendered, truthy in Hr. now rewrite Hres in Hr.
  - destruct s as [w ps]. apply step_wait.
Qed.

End Steps.

Section Invariants.
Import Session.
Variable env : Gemini.Env.

Lemma media_step (s s' : Session) :
  step env s s' -> media_ok (world s) -> media_ok (world s').
Proof.
  intros Hstep [Hr [Hm Hn]].
  inversion Hstep; subst; cbn [world] in *; unfold media_ok;
    cbn [ui network readers image mimeType with_readers].
  - now repeat split.
  - repeat split; try assumption.
    apply Forall_app. split; [assumption | now repeat constructor].
  - repeat split; try assumption.
    + now apply Forall_remove_nth.
    + right. rewrite Forall_forall in Hr. apply Hr.
      eapply nth_error_In; eassumption.
  - repeat split; try assumption.
    apply Forall_app. split; [assumption|].
    unfold service_call.
    destruct (Gemini.GoogleGenAI env (Gemini.GEMINI_API_KEY env));
      cbn [snd]; [constructor|].
    repeat constructor.
    exists (GeminiService.inline_data img), (mimeType (ui w)).
    split; [reflexivity|].
    destruct Hm as [[Hnone _]|Hm]; [congruence | exact Hm].
  - now repeat split.
  - now repeat split.
  - destruct (advance_to_frame t w) as [-> [_ [_ [-> [-> [-> _]]]]]].
    now repeat split.
Qed.

(** X8. Whatever the events, only image files get anywhere: every read
    under way is of a file of an image media type, a stored image comes
    with an image media type, and every request sent to the service is the
    fixed model and prompt with inline data of an image media type. *)
Theorem only_images_are_stored_or_sent (events : list Event) :
  media_ok (world (run env events initial))
  /\ (forall img,
         image (ui (world (run env events initial))) = Some img ->
         startsWith (mimeType (ui (world (run env events initial)))) "image/"
         = true).
Proof.
  assert (H : media_ok (world (run env events initial))).
  { apply (run_invariant env (fun s => media_ok (world s))).
    - repeat split; [constructor | now left | constructor].
    - intros ev s. apply media_step, dispatch_step. }
  split; [exact H|].
  intros img Himg. destruct H as [_ [[[Hnone _]|Hm] _]]; [congruence | exact Hm].
Qed.

Lemma result_step (s s' : Session) :
  step env s s' ->
  result (ui (world s)) = None \/ truthy (result (ui (world s))) = true ->
  result (ui (world s')) = None \/ truthy (result (ui (world s'))) = true.
Proof.
  intros Hstep H.
  inversion Hstep; subst; cbn [world ui result with_readers truthy] in *;
    try assumption.
  - now left.
  - right. apply shown_result_truthy.
  - now rewrite (proj2 (proj2 (proj2 (proj2 (proj2 (proj2 (proj2
                  (advance_to_frame t w)))))))).
Qed.

(** X9. Whatever the events, the stored result is never the empty text:
    it is missing or it is not empty. So a stored result always brings the
    copy button with it. *)
Theorem result_is_never_empty (events : list Event) :
  (result (ui (world (run env events initial))) = None
   \/ truthy (result (ui (world (run env events initial)))) = true)
  /\ (result (ui (world (run env events initial))) <> None ->
      copy_button_rendered (ui (world (run env events initial))) = true).
Proof.
  assert (H : result (ui (world (run env events initial))) = None
              \/ truthy (result (ui (world (run env events initial)))) = true).
  { apply (run_invariant env
             (fun s => result (ui (world s)) = None
                       \/ truthy (result (ui (world s))) = true)).
    - now left.
    - intros ev s. apply result_step, dispatch_step. }
  split; [exact H|].
  intros Hsome. destruct H as [H|H]; [contradiction | exact H].
Qed.

Lemma flight_step (s s' : Session) :
  step env s s' ->
  (analyzing (ui (world s)) = true <-> pending s <> [])
  /\ length (pending s) <= 1 ->
  (analyzing (ui (world s')) = true <-> pending s' <> [])
  /\ length (pending s') <= 1.
Proof.
  intros Hstep [Hiff Hlen].
  inversion Hstep; subst; cbn [world pending ui analyzing with_readers] in *;
    try (split; assumption).
  - assert (ps = []).
    { destruct ps; [reflexivity|].
      assert (false = true) by (rewrite <- H1; apply Hiff; discriminate).
      discriminate. }
    subst ps. cbn. split; [|lia]. split; [discriminate | reflexivity].
  - destruct ps as [|c0 [|c1 ps]]; [destruct i; discriminate | | cbn in Hlen; lia].
    destruct i as [|i]; [|destruct i; discriminate].
    cbn. split; [|lia]. split; [discriminate | congruence].
  - rewrite (proj1 (proj2 (proj2 (proj2 (proj2 (proj2 (proj2
               (advance_to_frame t w)))))))).
    now split.
Qed.

Lemma flight_invariant (events : list Event) :
  (analyzing (ui (world (run env events initial))) = true
   <-> pending (run env events initial) <> [])
  /\ length (pending (run env events initial)) <= 1.
Proof.
  apply (run_invariant env
           (fun s => (analyzing (ui (world s)) = true <-> pending s <> [])
                     /\ length (pending s) <= 1)).
  - cbn. split; [|lia]. split; [discriminate | congruence].
  - intros ev s. apply flight_step, dispatch_step.
Qed.

(** X10. Whatever the events, at most one call of the service is under
    way, and the analyzing flag is up exactly while one is: a click on the
    analyze button during an analysis starts no second one. *)
Theorem at_most_one_analysis_in_flight (events : list Event) :
  (analyzing (ui (world (run env events initial))) = true
   <-> pending (run env events initial) <> [])
  /\ length (pending (run env events initial)) <= 1.
Proof.
  exact (flight_invariant events).
Qed.

End Invariants.

Section Requests.
Import Session.
Variable env : Gemini.Env.

Lemma remove_nth_length {A : Type} (i : nat) (l : list A) :
  length (remove_nth i l) <= length l.
Proof.
  revert i; induction l as [|x l IH]; intros i; [destruct i; cbn; lia|].
  destruct i; cbn; [lia|]. specialize (IH i). lia.
Qed.

(** Only a click on the analyze button adds a call under way. *)
Lemma dispatch_pending (ev : Event) (s : Session) :
  ev <> ClickAnalyze ->
  length (pending (dispatch env ev s)) <= length (pending s).
Proof.
  intros Hev. destruct ev as [files|files|i e| |i| |t]; cbn [dispatch];
    try (cbn [pending]; lia).
  - destruct (nth_error (readers (world s)) i); cbn [pending]; lia.
  - contradiction.
  - destruct (nth_error (pending s) i); cbn [pending];
      [apply remove_nth_length | lia].
  - destruct (copy_button_rendered (ui (world s))); cbn [pending]; lia.
Qed.

Lemma step_network (s s' : Session) :
  step env s s' ->
  (network (world s') = network (world s)
   /\ (length (pending s') <= length (pending s)
       \/ length (network (world s')) <= length (network (world s))))
  \/ (length (pending s') = S (length (pending s))
      /\ length (network (world s')) <= S (length (network (world s)))).
Proof.
  intros Hstep.
  inversion Hstep; subst; cbn [world pending network with_readers].
  - left. split; [reflexivity | left; lia].
  - left. split; [reflexivity | left; lia].
  - left. split; [reflexivity | left; lia].
  - right. rewrite !length_app. cbn [length]. split; [lia|].
    unfold service_call.
    destruct (Gemini.GoogleGenAI env (Gemini.GEMINI_API_KEY env)); cbn; lia.
  - left. split; [reflexivity | right; lia].
  - left. split; [reflexivity | left; lia].
  - left. split; [now destruct (advance_to_frame t w) as [-> _] | left; lia].
Qed.

Lemma run_requests (events : list Event) (s : Session) :
  length (network (world (run env events s)))
  <= length (network (world s)) + analyze_clicks events.
Proof.
  revert s; induction events as [|ev events IH]; intros s; [cbn; lia|].
  cbn [run]. specialize (IH (dispatch env ev s)).
  pose proof (dispatch_step env ev s) as Hstep.
  destruct (step_network _ _ Hstep) as [[Hsame _] | [Hgrow Hle]].
  - rewrite Hsame in IH.
    destruct ev; cbn [analyze_clicks]; lia.
  - assert (ev = ClickAnalyze).
    { destruct ev as [files|files|i e| |i| |t]; try reflexivity;
        match goal with
        | |- ?e = _ =>
            assert (Hne : e <> ClickAnalyze) by discriminate;
            pose proof (dispatch_pending e s Hne); lia
        end. }
    subst ev. cbn [analyze_clicks]. lia.
Qed.

(** X11. Whatever the events, the service is sent at most one request per
    click on the analyze button: no other event sends one, and a call that
    fails is not tried again. *)
Theorem no_request_without_a_click (events : list Event) :
  length (network (world (run env events initial))) <= analyze_clicks events.
Proof.
  apply (run_requests events initial).
Qed.

End Requests.

Section Timers.
Import Session EventLoop.
Variable env : Gemini.Env.

Lemma filter_none_all {A : Type} (p : A -> bool) (l : list A) :
  filter p l = [] -> filter (fun x => negb (p x)) l = l.
Proof.
  induction l as [|x l IH]; cbn; [reflexivity|].
  destruct (p x); [discriminate|]. intros H. cbn. now rewrite IH.
Qed.

Lemma filter_all_none {A : Type} (p : A -> bool) (l : list A) :
  Forall (fun x => p x = false) l -> filter p l = [].
Proof.
  induction 1 as [|x l Hx _ IH]; cbn; [reflexivity|]. now rewrite Hx.
Qed.

Lemma advance_to_timers_ok (t : nat) (w : World) :
  timers_ok w -> timers_ok (advance_to t w).
Proof.
  intros [Hup Hdue]. split.
  - rewrite advance_to_timers. unfold advance_to. rewrite fire_ui.
    destruct (filter (is_due (Nat.max (clock w) t)) (timers w)) eqn:E;
      cbn [ui copied]; [|discriminate].
    intros Hc. rewrite (filter_none_all _ _ E). now apply Hup.
  - rewrite advance_to_timers, advance_to_clock.
    apply incl_Forall with (l1 := timers w); [apply incl_filter|].
    eapply Forall_impl; [|exact Hdue]. cbn. intros; lia.
Qed.

Lemma timers_step (s s' : Session) :
  step env s s' -> timers_ok (world s) -> timers_ok (world s').
Proof.
  intros Hstep [Hup Hdue].
  inversion Hstep; subst; cbn [world] in *;
    try (split; cbn [ui copied timers clock with_readers]; assumption).
  - split; cbn [ui copied timers clock].
    + intros _ E. now apply app_eq_nil in E as [_ E].
    + apply Forall_app. split; [assumption|]. repeat constructor.
  - now apply advance_to_timers_ok.
Qed.

(** X12. Whatever the events: while the copied indicator is up, a timer
    that will lower it is pending, and no pending timer is due later than
    2000 ms from now. So once 2000 ms have passed without a further event,
    the indicator is down and no timer is left. *)
Theorem copied_indicator_never_sticks (events : list Event) (later : nat) :
  timers_ok (world (run env events initial))
  /\ timers (advance_to (clock (world (run env events initial)) + 2000 + later)
               (world (run env events initial))) = []
  /\ copied (ui (advance_to
                   (clock (world (run env events initial)) + 2000 + later)
                   (world (run env events initial)))) = false.
Proof.
  assert (H : timers_ok (world (run env events initial))).
  { apply (run_invariant env (fun s => timers_ok (world s))).
    - split; [discriminate | constructor].
    - intros ev s. apply timers_step, dispatch_step. }
  set (w := world (run env events initial)) in *.
  destruct H as [Hup Hdue]. split; [now split|]. split.
  - rewrite advance_to_timers. apply filter_all_none.
    eapply Forall_impl; [|exact Hdue]. cbn. intros timer Ht.
    apply negb_false_iff. unfold is_due. apply Nat.leb_le. lia.
  - destruct (timers w) as [|timer l] eqn:E.
    + unfold advance_to. rewrite fire_ui, E. cbn.
      destruct (copied (ui w)) eqn:Hc; [|reflexivity].
      now destruct (Hup eq_refl).
    + apply (advance_to_clears _ w timer); [rewrite E; now left|].
      inversion Hdue; subst. lia.
Qed.

(** X13. With no timer pending beforehand, the copied indicator stays up
    through the 2000 ms that follow an invocation at [t0], whatever further
    invocations fall within them: at every time before [t0 + 2000] it is
    up. *)
Theorem copied_indicator_up_through_window (w : World) (t0 : nat)
        (times : list nat) (T : nat) :
  truthy (result (ui w)) = true ->
  timers w = [] ->
  clock w <= t0 ->
  Forall (fun t => t0 <= t /\ t < t0 + 2000) times ->
  T < t0 + 2000 ->
  copied (ui (advance_to T (copy_at (t0 :: times) w))) = true.
Proof.
  intros Htruthy Hnone Hclock Hwindow HT.
  assert (Hinv : forall l w1,
             truthy (result (ui w1)) = true ->
             copied (ui w1) = true ->
             clock w1 < t0 + 2000 ->
             Forall (fun timer => t0 + 2000 <= fst timer) (timers w1) ->
             Forall (fun t => t0 <= t /\ t < t0 + 2000) l ->
             copied (ui (copy_at l w1)) = true
             /\ clock (copy_at l w1) < t0 + 2000
             /\ Forall (fun timer => t0 + 2000 <= fst timer)
                  (timers (copy_at l w1))).
  { induction l as [|t l IH]; intros w1 Hr Hc Hclk Hdue Hl; [now repeat split|].
    inversion Hl as [|? ? [Ht0 Ht] Hl']; subst. cbn [copy_at].
    destruct (copy_at_one t w1 Hr) as [Hup [Hres [Hclk' Htimers]]].
    apply IH; [now rewrite Hres | exact Hup | rewrite Hclk'; lia | | exact Hl'].
    rewrite Htimers. apply Forall_app. split.
    - rewrite advance_to_timers.
      apply incl_Forall with (l1 := timers w1); [apply incl_filter | exact Hdue].
    - repeat constructor. cbn [fst]. lia. }
  cbn [copy_at].
  destruct (copy_at_one t0 w Htruthy) as [Hup [Hres [Hclk Htimers]]].
  set (w1 := exec_js App.copyToClipboard (advance_to t0 w)) in *.
  destruct (Hinv times w1) as [Hc [Hclk2 Hdue2]];
    [now rewrite Hres | exact Hup | rewrite Hclk; lia | | exact Hwindow |].
  - rewrite Htimers, advance_to_timers, Hnone. cbn [filter app].
    repeat constructor. cbn [fst]. lia.
  - unfold advance_to. rewrite fire_ui.
    rewrite (filter_all_none (is_due _) (timers (copy_at times w1))); [exact Hc|].
    eapply Forall_impl; [|exact Hdue2]. cbn. intros timer Ht.
    unfold is_due. apply Nat.leb_gt. lia.
Qed.

Lemma copied_indicator_up_through_window_witness :
  copied (ui (advance_to 1999
                (copy_at (0 :: [700; 1500])
                   (world_with_result scenario_result)))) = true.
Proof.
  apply (copied_indicator_up_through_window
           (world_with_result scenario_result) 0 [700; 1500] 1999).
  - reflexivity.
  - reflexivity.
  - cbn [clock world_with_result]. lia.
  - repeat (apply Forall_cons; [lia|]). apply Forall_nil.
  - lia.
Defined.

End Timers.

Section Scenario.
Import Session.

(** X14. From the mounted component: an image file is dropped, its read
    completes with a data URI made of a header, a comma and a payload
    (neither holding a comma), the analyze button is clicked, the service
    answers with a text that is not empty, and the copy button is clicked.
    Then exactly one request was sent, carrying the payload and the
    declared type of the file; the state holds the data URI, that type and
    the answer, with no analysis under way; and the clipboard holds what
    [App.textToCopy] makes of the answer. *)
Theorem select_analyze_copy (env : Gemini.Env) (ai : Gemini.Models)
        (file : Dom.File) (header payload answer : string) :
  startsWith (Dom.type file) "image/" = true ->
  has_char "," header = false ->
  has_char "," payload = false ->
  Gemini.GoogleGenAI env (Gemini.GEMINI_API_KEY env) = inr ai ->
  ai (GeminiService.request (header ++ String "," payload) (Dom.type file))
  = inr (Gemini.mkResponse (Some answer)) ->
  truthy_string answer = true ->
  run env [Drop [file]; Load 0 (loaded (header ++ String "," payload));
           ClickAnalyze; Settle 0; ClickCopy] initial
  = mkSession
      (mkWorld
         (mkUI (Some (header ++ String "," payload)) (Dom.type file) false
            (Some answer) true)
         [Gemini.mkParameters GeminiService.model_name
            [Gemini.InlineData (Some payload) (Dom.type file);
             Gemini.Text GeminiService.prompt]]
         [] [App.textToCopy answer] []
         [(2000, ClearCopied)] 0)
      [].
Proof.
  intros Htype Hheader Hpayload Hai Hcall Hanswer.
  set (uri := header ++ String "," payload) in *.
  assert (Huri : truthy_string uri = true) by (subst uri; now destruct header).
  assert (Hreq : GeminiService.request uri (Dom.type file)
                 = Gemini.mkParameters GeminiService.model_name
                     [Gemini.InlineData (Some payload) (Dom.type file);
                      Gemini.Text GeminiService.prompt]).
  { unfold GeminiService.request, GeminiService.inline_data, index. subst uri.
    now rewrite (split_at_first_sep _ _ _ Hheader), (split_no_sep _ _ Hpayload). }
  cbn [run].
  assert (H1 : dispatch env (Drop [file]) initial
               = mkSession (mkWorld App.initial_ui [] [] [] [file] [] 0) []).
  { cbn [dispatch App.onDrop world pending initial]. unfold exec_js.
    now rewrite handleFile_run, Htype. }
  rewrite H1. clear H1.
  assert (H2 : dispatch env (Load 0 (loaded uri))
                 (mkSession (mkWorld App.initial_ui [] [] [] [file] [] 0) [])
               = mkSession
                   (mkWorld (mkUI (Some uri) (Dom.type file) false None false)
                      [] [] [] [] [] 0) []) by reflexivity.
  rewrite H2. clear H2.
  assert (H3 : dispatch env ClickAnalyze
                 (mkSession
                    (mkWorld (mkUI (Some uri) (Dom.type file) false None false)
                       [] [] [] [] [] 0) [])
               = mkSession
                   (mkWorld (mkUI (Some uri) (Dom.type file) true None false)
                      [GeminiService.request uri (Dom.type file)]
                      [] [] [] [] 0)
                   [Normal (Some answer)]).
  { cbn [dispatch world pending ui].
    unfold App.analyze_button_disabled. cbn [image analyzing truthy].
    rewrite Huri. cbn [negb orb].
    rewrite (handleAnalyze_begin_run env uri
               (mkWorld (mkUI (Some uri) (Dom.type file) false None false)
                  [] [] [] [] [] 0) eq_refl Huri).
    unfold service_call. cbn [ui mimeType]. rewrite Hai, Hcall. reflexivity. }
  rewrite H3. clear H3.
  assert (H4 : dispatch env (Settle 0)
                 (mkSession
                    (mkWorld (mkUI (Some uri) (Dom.type file) true None false)
                       [GeminiService.request uri (Dom.type file)]
                       [] [] [] [] 0)
                    [Normal (Some answer)])
               = mkSession
                   (mkWorld
                      (mkUI (Some uri) (Dom.type file) false (Some answer) false)
                      [GeminiService.request uri (Dom.type file)]
                      [] [] [] [] 0)
                   []).
  { cbn [dispatch world pending nth_error remove_nth]. unfold exec_js.
    rewrite handleAnalyze_resume_run.
    cbn [snd shown_result logged_error or_else]. now rewrite Hanswer. }
  rewrite H4. clear H4.
  cbn [dispatch world pending ui].
  unfold copy_button_rendered. cbn [result truthy]. rewrite Hanswer.
  unfold exec_js.
  rewrite (copyToClipboard_run
             (mkWorld
                (mkUI (Some uri) (Dom.type file) false (Some answer) false)
                [GeminiService.request uri (Dom.type file)] [] [] [] [] 0)
             answer eq_refl Hanswer).
  cbn [snd]. now rewrite Hreq.
Qed.

Lemma select_analyze_copy_witness :
  clipboard
    (world
       (run (stub_env (inr (Gemini.mkResponse (Some scenario_result))))
          [Drop [Dom.mkFile "photo.png" "image/png"];
           Load 0 (loaded ("data:image/png;base64" ++ String "," "AAAA"));
           ClickAnalyze; Settle 0; ClickCopy] initial))
  = ["cat on a chair"].
Proof.
  rewrite (select_analyze_copy
             (stub_env (inr (Gemini.mkResponse (Some scenario_result))))
             (fun _ => inr (Gemini.mkResponse (Some scenario_result)))
             (Dom.mkFile "photo.png" "image/png")
             "data:image/png;base64" "AAAA" scenario_result);
    reflexivity.
Defined.

(** X15. Whatever the events so far, once the call under way (if there
    is one) has settled, with whatever outcome, the analyzing flag is down
    and no call is under way: the component never stays in the analyzing
    state. *)
Theorem settling_ends_the_analysis (env : Gemini.Env) (events : list Event) :
  analyzing (ui (world (run env (events ++ [Settle 0]) initial))) = false
  /\ pending (run env (events ++ [Settle 0]) initial) = [].
Proof.
  rewrite run_app. cbn [run dispatch].
  destruct (flight_invariant env events) as [Hiff Hlen].
  destruct (pending (run env events initial)) as [|c [|c' ps]] eqn:E;
    cbn [nth_error]; [| |cbn in Hlen; lia].
  - rewrite E. split; [|reflexivity].
    destruct (analyzing (ui (world (run env events initial)))); [|reflexivity].
    now destruct (proj1 Hiff eq_refl).
  - cbn [world pending remove_nth]. unfold exec_js.
    rewrite handleAnalyze_resume_run. now split.
Qed.

(** X16. Nothing is cancelled: when the read of a new image completes
    while a call is under way, the answer to that call, which was made for
    the old image, is stored as the result beside the new image. *)
Theorem late_answer_lands_beside_new_image
        (env : Gemini.Env) (w : World) (img1 : string) (i : nat)
        (file2 : Dom.File) (uri2 : string) :
  image (ui w) = Some img1 ->
  truthy_string img1 = true ->
  analyzing (ui w) = false ->
  nth_error (readers w) i = Some file2 ->
  ui (world (run env [ClickAnalyze; Load i (loaded uri2); Settle 0]
               (mkSession w [])))
  = mkUI (Some uri2) (Dom.type file2) false
      (Some (shown_result (fst (service_call env img1 (mimeType (ui w))))))
      (copied (ui w))
  /\ network (world (run env [ClickAnalyze; Load i (loaded uri2); Settle 0]
                       (mkSession w [])))
     = (network w ++ snd (service_call env img1 (mimeType (ui w))))%list.
Proof.
  intros Himg Htruthy Han Hread.
  cbn [run].
  assert (H1 : dispatch env ClickAnalyze (mkSession w [])
               = mkSession
                   (mkWorld
                      (mkUI (image (ui w)) (mimeType (ui w)) true
                         (result (ui w)) (copied (ui w)))
                      (network w ++ snd (service_call env img1 (mimeType (ui w))))
                      (console w) (clipboard w) (readers w) (timers w)
                      (clock w))
                   [fst (service_call env img1 (mimeType (ui w)))]).
  { cbn [dispatch world pending]. unfold App.analyze_button_disabled, truthy.
    rewrite Himg, Htruthy, Han. cbn [negb orb].
    rewrite (handleAnalyze_begin_run env img1 w Himg Htruthy).
    cbn [app]. now rewrite ?Himg. }
  rewrite H1. clear H1.
  cbn [dispatch world pending readers]. rewrite Hread.
  cbn [world pending nth_error remove_nth]. unfold exec_js.
  rewrite handleAnalyze_resume_run. split; reflexivity.
Qed.

Lemma late_answer_lands_beside_new_image_witness :
  ui (world
        (run (stub_env (inr (Gemini.mkResponse (Some "a cat"))))
           [ClickAnalyze; Load 0 (loaded "data:image/gif;base64,BBBB");
            Settle 0]
           (mkSession
              (with_readers [Dom.mkFile "dog.gif" "image/gif"] ready_world)
              [])))
  = mkUI (Some "data:image/gif;base64,BBBB") "image/gif" false (Some "a cat")
      false.
Proof.
  apply (proj1 (late_answer_lands_beside_new_image
                  (stub_env (inr (Gemini.mkResponse (Some "a cat"))))
                  (with_readers [Dom.mkFile "dog.gif" "image/gif"] ready_world)
                  "data:image/png;base64,AAAA" 0
                  (Dom.mkFile "dog.gif" "image/gif")
                  "data:image/gif;base64,BBBB"
                  eq_refl eq_refl eq_refl eq_refl)).
Defined.

End Scenario.
